(** * Schema pruning (packages/utils/src/prune.ts)

    A shallow embedding of [pruneSchema] and of the functions it is made
    of: the implementation index ([createPruningContext],
    [getImplementations]), the marking traversal ([visitOutputType],
    [visitInputType], [visitTypes]) and the selection loop with its re-run.

    Type objects of graphql-js refer to each other by reference, and a
    schema's type map holds every type that its roots, types and directives
    refer to.  Here a reference is the referred type's name, resolved in the
    type map ([getType]); a name that the map does not have makes the
    traversal fail ([None]), which is what line 134 does on [undefined].
    JS records used as maps are [gmap]s, records used as sets and the [Set]
    of names are [gset]s; records whose key order drives a [for] loop are
    lists in insertion order.  The recursion of the source becomes
    recursion on a bound ([fuel]) that the properties below show to be
    enough. *)

From stdpp Require Import gmap strings list fin_maps fin_sets.

(* The solvers of stdpp clear hypotheses that may be gone already. *)
#[local] Set Warnings "-clear-no-such-hyp".

(** ** Data model *)

(** A field or argument type as declared: a named type under any number of
    list and non-null wrappers. *)
Inductive GraphQLType : Type :=
| NamedTypeRef (typeName : string)
| GraphQLList (ofType : GraphQLType)
| GraphQLNonNull (ofType : GraphQLType).

(** [getNamedType] of graphql-js: strip every wrapper. *)
Fixpoint getNamedType (type : GraphQLType) : string :=
  match type with
  | NamedTypeRef typeName => typeName
  | GraphQLList ofType => getNamedType ofType
  | GraphQLNonNull ofType => getNamedType ofType
  end.

Record GraphQLArgument : Type := {
  arg_name : string;
  arg_type : GraphQLType;
}.

Record GraphQLField : Type := {
  field_name : string;
  field_type : GraphQLType;
  field_args : list GraphQLArgument;
}.

Record GraphQLInputField : Type := {
  input_field_name : string;
  input_field_type : GraphQLType;
}.

(** The six kinds of named type.  [getFields()] is the list of fields in
    declaration order, [getInterfaces()] and [getTypes()] are lists of
    names. *)
Inductive TypeDefinition : Type :=
| GraphQLScalarType
| GraphQLObjectType (fields : list GraphQLField) (interfaces : list string)
| GraphQLInterfaceType (fields : list GraphQLField) (interfaces : list string)
| GraphQLUnionType (types : list string)
| GraphQLEnumType
| GraphQLInputObjectType (inputFields : list GraphQLInputField).

Record GraphQLNamedType : Type := {
  name : string;
  definition : TypeDefinition;
}.

Record GraphQLDirective : Type := {
  directive_name : string;
  directive_args : list GraphQLArgument;
}.

(** [typeMap] is [schema.getTypeMap()] in key order; each entry's key is
    its [name]. *)
Record GraphQLSchema : Type := {
  typeMap : list GraphQLNamedType;
  directives : list GraphQLDirective;
  queryType : option string;
  mutationType : option string;
  subscriptionType : option string;
}.

Definition isInterfaceType (type : GraphQLNamedType) : bool :=
  match definition type with GraphQLInterfaceType _ _ => true | _ => false end.

(** ['getInterfaces' in type]: the list for the kinds that have the method
    (object types, and interface types since graphql-js 15), [None] for the
    others. *)
Definition getInterfaces (type : GraphQLNamedType) : option (list string) :=
  match definition type with
  | GraphQLObjectType _ interfaces => Some interfaces
  | GraphQLInterfaceType _ interfaces => Some interfaces
  | _ => None
  end.

(** [schema.getType(typeName)]: the entry of the type map under that key. *)
Definition getType (schema : GraphQLSchema) (typeName : string)
  : option GraphQLNamedType :=
  List.find (λ type, String.eqb (name type) typeName) (typeMap schema).

Definition typeNames (schema : GraphQLSchema) : list string :=
  name <$> typeMap schema.

(** [typeName.startsWith('__')] *)
Definition isReserved (typeName : string) : bool := String.prefix "__" typeName.

(** Modelled from the spec: [getRootTypes] of ./rootTypes, which is not part
    of the sources at hand; it returns the query, mutation and subscription
    root types that the schema has, in that order. *)
Definition getRootTypes (schema : GraphQLSchema) : list string :=
  from_option (λ r, [r]) [] (queryType schema) ++
  from_option (λ r, [r]) [] (mutationType schema) ++
  from_option (λ r, [r]) [] (subscriptionType schema).

(** ** Loops *)

(** A [for] loop whose body may fail: the state is threaded through the
    elements in order and the first failure aborts the loop. *)
Fixpoint forOf {A S : Type} (body : S → A → option S) (st : S) (xs : list A)
  : option S :=
  match xs with
  | [] => Some st
  | x :: rest =>
    match body st x with
    | Some st' => forOf body st' rest
    | None => None
    end
  end.

(** ** The implementation index *)

Record PruningContext : Type := {
  schema : GraphQLSchema;
  unusedTypes : gmap string bool;
  implementations : gmap string (list string);
}.

(** [getImplementations]: the record of implementing type names, as the
    list of its keys in insertion order; [None] is [undefined]. *)
Definition getImplementations (implementations : gmap string (list string))
    (typeName : string) : option (list string) :=
  implementations !! typeName.

(** [record[key] = true] on a record of keys: a new key goes last, an
    existing key keeps its place. *)
Definition setKey (key : string) (keys : list string) : list string :=
  if decide (key ∈ keys) then keys else keys ++ [key].

(** Body of the inner loop of [createPruningContext], lines 166 to 170. *)
Definition recordImplementation (typeName : string)
    (implementations : gmap string (list string)) (iface : string)
  : gmap string (list string) :=
  let implementations' :=
    match getImplementations implementations iface with
    | None => <[iface := []]> implementations
    | Some _ => implementations
    end in
  match implementations' !! iface with
  | Some keys => <[iface := setKey typeName keys]> implementations'
  | None => implementations'
  end.

(** Body of the outer loop, lines 163 to 172; [type] is the entry under
    the key [typeName] that the loop is at. *)
Definition recordType (implementations : gmap string (list string))
    (type : GraphQLNamedType) : gmap string (list string) :=
  match getInterfaces type with
  | Some interfaces => foldl (recordImplementation (name type)) implementations interfaces
  | None => implementations
  end.

Definition createPruningContext (schema : GraphQLSchema) : PruningContext :=
  {| schema := schema;
     unusedTypes := ∅;
     implementations := foldl recordType ∅ (typeMap schema) |}.

(** ** The marking traversal *)

Inductive Position : Type := OutputPosition | InputPosition.

(** One call of a visit function: the position it was made in, the name it
    was made with, and whether it got past the visited check. *)
Record Visit : Type := {
  visit_position : Position;
  visit_name : string;
  visit_marked : bool;
}.

(** What the traversal mutates: the [visitedTypes] record, which only ever
    holds [true] and is a set here, and [pruningContext.unusedTypes].
    [journal] is a ghost field: the calls made so far, latest first.  No
    function reads it. *)
Record Marking : Type := {
  visitedTypes : gset string;
  unused : gmap string bool;
  journal : list Visit;
}.

(** The early return of lines 110 to 112 and 193 to 195. *)
Definition skipVisited (position : Position) (typeName : string) (st : Marking)
  : Marking :=
  {| visitedTypes := visitedTypes st;
     unused := unused st;
     journal := Build_Visit position typeName false :: journal st |}.

(** Lines 114 and 115, and 197 and 198. *)
Definition markVisited (position : Position) (typeName : string) (st : Marking)
  : Marking :=
  {| visitedTypes := {[typeName]} ∪ visitedTypes st;
     unused := <[typeName := false]> (unused st);
     journal := Build_Visit position typeName true :: journal st |}.

(** [visitInputType].  [fuel] bounds the depth of the recursion; a named
    type that the type map does not have makes the call fail, as does
    running out of fuel. *)
Fixpoint visitInputType (fuel : nat) (schema : GraphQLSchema) (st : Marking)
    (type : GraphQLNamedType) : option Marking :=
  match fuel with
  | O => None
  | S fuel' =>
    if decide (name type ∈ visitedTypes st) then
      Some (skipVisited InputPosition (name type) st)
    else
      let st := markVisited InputPosition (name type) st in
      match definition type with
      | GraphQLInputObjectType fields =>
        forOf (λ st field,
                 namedType ← getType schema (getNamedType (input_field_type field));
                 visitInputType fuel' schema st namedType)
              st fields
      | _ => Some st
      end
  end.

(** The loop over [field.args] and over [directive.args], lines 124 to 127
    and 228 to 231. *)
Definition visitArgs (fuel : nat) (schema : GraphQLSchema) (st : Marking)
    (args : list GraphQLArgument) : option Marking :=
  forOf (λ st arg,
           type ← getType schema (getNamedType (arg_type arg));
           visitInputType fuel schema st type)
        st args.

(** [visitOutputType]. *)
Fixpoint visitOutputType (fuel : nat) (schema : GraphQLSchema)
    (implementations : gmap string (list string)) (st : Marking)
    (type : GraphQLNamedType) : option Marking :=
  match fuel with
  | O => None
  | S fuel' =>
    let visitNames := forOf (λ st typeName,
                               type ← getType schema typeName;
                               visitOutputType fuel' schema implementations st type) in
    let visitFields := forOf (λ st field,
                                namedType ← getType schema (getNamedType (field_type field));
                                st ← visitOutputType fuel' schema implementations st namedType;
                                visitArgs fuel' schema st (field_args field)) in
    if decide (name type ∈ visitedTypes st) then
      Some (skipVisited OutputPosition (name type) st)
    else
      let st := markVisited OutputPosition (name type) st in
      match definition type with
      | GraphQLObjectType fields interfaces =>
        st ← visitFields st fields;
        visitNames st interfaces
      | GraphQLInterfaceType fields interfaces =>
        st ← visitFields st fields;
        st ← match getImplementations implementations (name type) with
             | Some implementers => visitNames st implementers
             | None => Some st
             end;
        visitNames st interfaces
      | GraphQLUnionType types => visitNames st types
      | _ => Some st
      end
  end.

(** The first loop of [visitTypes], lines 213 to 217. *)
Definition initUnused (unusedTypes : gmap string bool) (typeName : string)
  : gmap string bool :=
  if isReserved typeName then unusedTypes else <[typeName := true]> unusedTypes.

(** The body of [visitTypes], lines 211 to 232, with the depth of the
    visits bounded by [fuel]; it returns the marking it ends with. *)
Definition markTypesWithin (fuel : nat) (pruningContext : PruningContext)
  : option Marking :=
  let schema := schema pruningContext in
  let st := {| visitedTypes := ∅;
               unused := foldl initUnused (unusedTypes pruningContext) (typeNames schema);
               journal := [] |} in
  let rootTypes := getRootTypes schema in
  st ← forOf (λ st rootName,
                rootType ← getType schema rootName;
                visitOutputType fuel schema (implementations pruningContext) st rootType)
             st rootTypes;
  forOf (λ st directive, visitArgs fuel schema st (directive_args directive))
        st (directives schema).

(** Depth that the traversal of a schema cannot exceed: every nested call
    but the innermost has marked a type of the type map. *)
Definition visitFuel (schema : GraphQLSchema) : nat := S (length (typeMap schema)).

Definition markTypes (pruningContext : PruningContext) : option Marking :=
  markTypesWithin (visitFuel (schema pruningContext)) pruningContext.

(** [visitTypes]: the pruning context after the traversal. *)
Definition visitTypes (pruningContext : PruningContext) : option PruningContext :=
  st ← markTypes pruningContext;
  Some {| schema := schema pruningContext;
          unusedTypes := unused st;
          implementations := implementations pruningContext |}.

(** ** The selection of the types to prune *)

(** The options of [pruneSchema]; an absent flag is [false]. *)
Record PruneSchemaOptions : Type := {
  skipPruning : option (GraphQLNamedType → bool);
  skipEmptyCompositeTypePruning : bool;
  skipEmptyUnionPruning : bool;
  skipUnimplementedInterfacesPruning : bool;
  skipUnusedTypesPruning : bool;
}.

(** [options = {}] *)
Definition defaultOptions : PruneSchemaOptions :=
  {| skipPruning := None;
     skipEmptyCompositeTypePruning := false;
     skipEmptyUnionPruning := false;
     skipUnimplementedInterfacesPruning := false;
     skipUnusedTypesPruning := false |}.

(** [pruningContext.unusedTypes[type.name]] read as a condition: an absent
    entry is falsy. *)
Definition isUnused (pruningContext : PruningContext) (typeName : string) : bool :=
  default false (unusedTypes pruningContext !! typeName).

(** [!Object.keys(record).length], [!array.length] *)
Definition isEmpty {A : Type} (xs : list A) : bool :=
  match xs with [] => true | _ => false end.

(** The conditions of lines 62 to 88, by kind of type. *)
Definition pruneCondition (options : PruneSchemaOptions)
    (pruningContext : PruningContext) (type : GraphQLNamedType) : bool :=
  match definition type with
  | GraphQLObjectType fields _ =>
    (isEmpty fields && negb (skipEmptyCompositeTypePruning options))
    || (isUnused pruningContext (name type) && negb (skipUnusedTypesPruning options))
  | GraphQLInputObjectType fields =>
    (isEmpty fields && negb (skipEmptyCompositeTypePruning options))
    || (isUnused pruningContext (name type) && negb (skipUnusedTypesPruning options))
  | GraphQLUnionType types =>
    (isEmpty types && negb (skipEmptyUnionPruning options))
    || (isUnused pruningContext (name type) && negb (skipUnusedTypesPruning options))
  | GraphQLInterfaceType fields _ =>
    (isEmpty fields && negb (skipEmptyCompositeTypePruning options))
    || match getImplementations (implementations pruningContext) (name type) with
       | Some implementers =>
         isEmpty implementers && negb (skipUnimplementedInterfacesPruning options)
       | None => false
       end
    || (isUnused pruningContext (name type) && negb (skipUnusedTypesPruning options))
  | _ =>
    isUnused pruningContext (name type) && negb (skipUnusedTypesPruning options)
  end.

(** Whether the body of the loop, lines 52 to 89, adds the type's name. *)
Definition prunesType (options : PruneSchemaOptions)
    (pruningContext : PruningContext) (type : GraphQLNamedType) : bool :=
  if isReserved (name type) then false
  else if from_option (λ skip, skip type) false (skipPruning options) then false
  else pruneCondition options pruningContext type.

(** The loop of lines 51 to 90 over [Object.values(schema.getTypeMap())]. *)
Definition selectTypesToPrune (options : PruneSchemaOptions)
    (pruningContext : PruningContext) (types : list GraphQLNamedType)
  : gset string :=
  foldl (λ typesToPrune type,
           if prunesType options pruningContext type
           then {[name type]} ∪ typesToPrune else typesToPrune)
        ∅ types.

(** ** Rebuilding the schema *)

(** What a [MapperKind.TYPE] mapper returns in [pruneSchema]: [null] to
    delete the type, nothing to keep it as it is. *)
Inductive TypeMapperResult : Type := MapperNull | MapperUndefined.

#[global] Instance TypeMapperResult_eq_dec : EqDecision TypeMapperResult.
Proof. solve_decision. Defined.

(** References to removed types are dropped, kind by kind. *)
Definition rewireArgs (removed : gset string) (args : list GraphQLArgument)
  : list GraphQLArgument :=
  filter (λ arg, getNamedType (arg_type arg) ∉ removed) args.

Definition rewireField (removed : gset string) (field : GraphQLField)
  : GraphQLField :=
  {| field_name := field_name field;
     field_type := field_type field;
     field_args := rewireArgs removed (field_args field) |}.

Definition rewireFields (removed : gset string) (fields : list GraphQLField)
  : list GraphQLField :=
  rewireField removed
    <$> filter (λ field, getNamedType (field_type field) ∉ removed) fields.

Definition rewireInputFields (removed : gset string)
    (fields : list GraphQLInputField) : list GraphQLInputField :=
  filter (λ field, getNamedType (input_field_type field) ∉ removed) fields.

Definition rewireNamedTypes (removed : gset string) (typeNames : list string)
  : list string :=
  filter (λ typeName, typeName ∉ removed) typeNames.

Definition rewireDefinition (removed : gset string) (def : TypeDefinition)
  : TypeDefinition :=
  match def with
  | GraphQLObjectType fields interfaces =>
    GraphQLObjectType (rewireFields removed fields)
      (rewireNamedTypes removed interfaces)
  | GraphQLInterfaceType fields interfaces =>
    GraphQLInterfaceType (rewireFields removed fields)
      (rewireNamedTypes removed interfaces)
  | GraphQLUnionType types => GraphQLUnionType (rewireNamedTypes removed types)
  | GraphQLInputObjectType fields =>
    GraphQLInputObjectType (rewireInputFields removed fields)
  | GraphQLScalarType => GraphQLScalarType
  | GraphQLEnumType => GraphQLEnumType
  end.

Definition rewireNamedType (removed : gset string) (type : GraphQLNamedType)
  : GraphQLNamedType :=
  {| name := name type; definition := rewireDefinition removed (definition type) |}.

Definition rewireDirective (removed : gset string) (directive : GraphQLDirective)
  : GraphQLDirective :=
  {| directive_name := directive_name directive;
     directive_args := rewireArgs removed (directive_args directive) |}.

Definition rewireRoot (removed : gset string) (root : option string)
  : option string :=
  match root with
  | Some typeName => if decide (typeName ∈ removed) then None else Some typeName
  | None => None
  end.

(** The names of the types for which the mapper returns [null]. *)
Definition removedNames (schema : GraphQLSchema)
    (typeMapper : GraphQLNamedType → TypeMapperResult) : gset string :=
  list_to_set (name <$> filter (λ type, typeMapper type = MapperNull) (typeMap schema)).

(** Modelled from the spec: [mapSchema] of ./mapSchema, which is not part of
    the sources at hand, called with a [MapperKind.TYPE] mapper only (the
    spec's rebuild-excluding operation).  The result is the input with every
    type deleted for which the mapper returns [null].  The spec leaves the
    fate of references to a deleted type to the builder; here they are
    dropped: a field or argument of a deleted type, a deleted member of a
    union, a deleted interface of an implementer, a deleted root. *)
Definition mapSchema (schema : GraphQLSchema)
    (typeMapper : GraphQLNamedType → TypeMapperResult) : GraphQLSchema :=
  let removed := removedNames schema typeMapper in
  {| typeMap := rewireNamedType removed <$>
                  filter (λ type, typeMapper type ≠ MapperNull) (typeMap schema);
     directives := rewireDirective removed <$> directives schema;
     queryType := rewireRoot removed (queryType schema);
     mutationType := rewireRoot removed (mutationType schema);
     subscriptionType := rewireRoot removed (subscriptionType schema) |}.

(** ** [pruneSchema] *)

(** The mapper of lines 94 to 98. *)
Definition pruneMapper (typesToPrune : gset string) (type : GraphQLNamedType)
  : TypeMapperResult :=
  if decide (name type ∈ typesToPrune) then MapperNull else MapperUndefined.

(** The removal set of one pass over a schema, lines 43 to 90. *)
Definition typesToPruneOf (schema : GraphQLSchema) (options : PruneSchemaOptions)
  : option (gset string) :=
  pruningContext ← visitTypes (createPruningContext schema);
  Some (selectTypesToPrune options pruningContext (typeMap schema)).

(** [pruneSchema] with the number of passes bounded by [fuel]. *)
Fixpoint pruneSchemaWithin (fuel : nat) (schema : GraphQLSchema)
    (options : PruneSchemaOptions) : option GraphQLSchema :=
  match fuel with
  | O => None
  | S fuel' =>
    typesToPrune ← typesToPruneOf schema options;
    let prunedSchema := mapSchema schema (pruneMapper typesToPrune) in
    if decide (size typesToPrune = 0) then Some prunedSchema
    else pruneSchemaWithin fuel' prunedSchema options
  end.

(** Each pass but the last deletes a type, so there are no more passes
    than types, plus the last. *)
Definition pruneFuel (schema : GraphQLSchema) : nat := S (length (typeMap schema)).

Definition pruneSchema (schema : GraphQLSchema) (options : PruneSchemaOptions)
  : option GraphQLSchema :=
  pruneSchemaWithin (pruneFuel schema) schema options.

(** A pass of [pruneSchema]: the schema it ran on and its removal set. *)
Record Pass : Type := {
  pass_schema : GraphQLSchema;
  pass_typesToPrune : gset string;
}.

(** The passes that [pruneSchemaWithin] makes, in order. *)
Fixpoint passesWithin (fuel : nat) (schema : GraphQLSchema)
    (options : PruneSchemaOptions) : list Pass :=
  match fuel with
  | O => []
  | S fuel' =>
    match typesToPruneOf schema options with
    | Some typesToPrune =>
      Build_Pass schema typesToPrune ::
        (if decide (size typesToPrune = 0) then []
         else passesWithin fuel' (mapSchema schema (pruneMapper typesToPrune)) options)
    | None => []
    end
  end.

Definition passes (schema : GraphQLSchema) (options : PruneSchemaOptions)
  : list Pass :=
  passesWithin (pruneFuel schema) schema options.

(** ** Well-formed schemas *)

(** Kinds allowed where an output type is expected (a field's type, a
    union's member, an interface, a root) and where an input type is
    expected (an argument's type, an input field's type): the members of
    [NamedOutputType] and [NamedInputType]. *)
Definition isOutputType (type : GraphQLNamedType) : bool :=
  match definition type with
  | GraphQLInputObjectType _ => false
  | _ => true
  end.

Definition isInputType (type : GraphQLNamedType) : bool :=
  match definition type with
  | GraphQLScalarType | GraphQLEnumType | GraphQLInputObjectType _ => true
  | _ => false
  end.

(** The name is a key of the type map and the type under it is of the
    expected kind. *)
Definition resolvesTo (schema : GraphQLSchema) (kind : GraphQLNamedType → bool)
    (typeName : string) : bool :=
  match getType schema typeName with
  | Some type => kind type
  | None => false
  end.

Definition wellFormedArgs (schema : GraphQLSchema) (args : list GraphQLArgument)
  : bool :=
  forallb (λ arg, resolvesTo schema isInputType (getNamedType (arg_type arg))) args.

Definition wellFormedField (schema : GraphQLSchema) (field : GraphQLField) : bool :=
  resolvesTo schema isOutputType (getNamedType (field_type field))
  && wellFormedArgs schema (field_args field).

Definition wellFormedType (schema : GraphQLSchema) (type : GraphQLNamedType) : bool :=
  match definition type with
  | GraphQLObjectType fields interfaces
  | GraphQLInterfaceType fields interfaces =>
    forallb (wellFormedField schema) fields
    && forallb (resolvesTo schema isOutputType) interfaces
  | GraphQLUnionType types => forallb (resolvesTo schema isOutputType) types
  | GraphQLInputObjectType fields =>
    forallb (λ field, resolvesTo schema isInputType
                        (getNamedType (input_field_type field))) fields
  | _ => true
  end.

(** The precondition of [pruneSchema]: the keys of the type map are
    distinct, and every reference is to a type of the map, of a kind fit
    for the position of the reference. *)
Definition wellFormed (schema : GraphQLSchema) : bool :=
  bool_decide (NoDup (typeNames schema))
  && forallb (wellFormedType schema) (typeMap schema)
  && forallb (λ directive, wellFormedArgs schema (directive_args directive))
             (directives schema)
  && forallb (resolvesTo schema isOutputType) (getRootTypes schema).

(** ** Reachability, as the traversal rules define it *)

(** [type.getFields()] of an object or interface type. *)
Definition getFields (type : GraphQLNamedType) : option (list GraphQLField) :=
  match definition type with
  | GraphQLObjectType fields _ => Some fields
  | GraphQLInterfaceType fields _ => Some fields
  | _ => None
  end.

(** The names a field leads to: its type, then its arguments' types. *)
Definition fieldReferences (field : GraphQLField) : list string :=
  getNamedType (field_type field)
    :: ((λ arg, getNamedType (arg_type arg)) <$> field_args field).

(** The names a type leads to once the traversal has marked it. *)
Definition references (implementations : gmap string (list string))
    (type : GraphQLNamedType) : list string :=
  match definition type with
  | GraphQLObjectType fields interfaces =>
    (fields ≫= fieldReferences) ++ interfaces
  | GraphQLInterfaceType fields interfaces =>
    (fields ≫= fieldReferences)
      ++ default [] (getImplementations implementations (name type))
      ++ interfaces
  | GraphQLUnionType types => types
  | GraphQLInputObjectType fields =>
    (λ field, getNamedType (input_field_type field)) <$> fields
  | _ => []
  end.

(** A name is reached in a position: the roots and the directives'
    argument types to begin with, then one rule per loop of the visit
    functions. *)
Inductive reaches (schema : GraphQLSchema)
    (implementations : gmap string (list string)) : Position → string → Prop :=
| reaches_root rootName :
    rootName ∈ getRootTypes schema →
    reaches schema implementations OutputPosition rootName
| reaches_directive directive arg :
    directive ∈ directives schema →
    arg ∈ directive_args directive →
    reaches schema implementations InputPosition (getNamedType (arg_type arg))
| reaches_field typeName type fields field :
    reaches schema implementations OutputPosition typeName →
    getType schema typeName = Some type →
    getFields type = Some fields →
    field ∈ fields →
    reaches schema implementations OutputPosition (getNamedType (field_type field))
| reaches_arg typeName type fields field arg :
    reaches schema implementations OutputPosition typeName →
    getType schema typeName = Some type →
    getFields type = Some fields →
    field ∈ fields →
    arg ∈ field_args field →
    reaches schema implementations InputPosition (getNamedType (arg_type arg))
| reaches_implementer typeName type implementers implementer :
    reaches schema implementations OutputPosition typeName →
    getType schema typeName = Some type →
    isInterfaceType type = true →
    getImplementations implementations (name type) = Some implementers →
    implementer ∈ implementers →
    reaches schema implementations OutputPosition implementer
| reaches_interface typeName type interfaces iface :
    reaches schema implementations OutputPosition typeName →
    getType schema typeName = Some type →
    getInterfaces type = Some interfaces →
    iface ∈ interfaces →
    reaches schema implementations OutputPosition iface
| reaches_member typeName type types member :
    reaches schema implementations OutputPosition typeName →
    getType schema typeName = Some type →
    definition type = GraphQLUnionType types →
    member ∈ types →
    reaches schema implementations OutputPosition member
| reaches_input_field typeName type fields field :
    reaches schema implementations InputPosition typeName →
    getType schema typeName = Some type →
    definition type = GraphQLInputObjectType fields →
    field ∈ fields →
    reaches schema implementations InputPosition
      (getNamedType (input_field_type field)).

(** Reachable in a schema: reached in some position, with the schema's own
    implementation index. *)
Definition reachable (schema : GraphQLSchema) (typeName : string) : Prop :=
  ∃ position,
    reaches schema (implementations (createPruningContext schema)) position typeName.

(** A type declares an interface. *)
Definition declares (type : GraphQLNamedType) (iface : string) : Prop :=
  ∃ interfaces, getInterfaces type = Some interfaces ∧ iface ∈ interfaces.

(** ** The traversal as a sequence of steps *)

(** What one call does to the marking before it recurses or returns. *)
Inductive step : Marking → Marking → Prop :=
| step_skip position typeName st :
    typeName ∈ visitedTypes st →
    step st (skipVisited position typeName st)
| step_mark position typeName st :
    typeName ∉ visitedTypes st →
    step st (markVisited position typeName st).

(** The names that the calls of a journal marked. *)
Definition markedNames (calls : list Visit) : list string :=
  visit_name <$> filter (λ call, visit_marked call = true) calls.

(** Every reference of the type under a name is in the set. *)
Definition expanded (schema : GraphQLSchema)
    (implementations : gmap string (list string)) (visited : gset string)
    (typeName : string) : Prop :=
  ∀ type, getType schema typeName = Some type →
    ∀ reference, reference ∈ references implementations type → reference ∈ visited.

(** A stretch of the traversal: steps only, and every name it newly
    marked is expanded at its end. *)
Definition traverses (schema : GraphQLSchema)
    (implementations : gmap string (list string)) (st st' : Marking) : Prop :=
  rtc step st st' ∧
  ∀ typeName, typeName ∈ visitedTypes st' → typeName ∉ visitedTypes st →
    expanded schema implementations (visitedTypes st') typeName.

(** The types of the type map that the traversal has not marked. *)
Definition unvisited (schema : GraphQLSchema) (st : Marking) : gset string :=
  list_to_set (typeNames schema) ∖ visitedTypes st.

(** ** The rules of the selection, one per skip flag *)

Inductive Rule : Type :=
| EmptyCompositeRule
| EmptyUnionRule
| UnimplementedInterfaceRule
| UnusedTypeRule.

Definition rules : list Rule :=
  [EmptyCompositeRule; EmptyUnionRule; UnimplementedInterfaceRule; UnusedTypeRule].

#[global] Instance Rule_eq_dec : EqDecision Rule.
Proof. solve_decision. Defined.

(** The flag that governs a rule. *)
Definition skipFlag (rule : Rule) (options : PruneSchemaOptions) : bool :=
  match rule with
  | EmptyCompositeRule => skipEmptyCompositeTypePruning options
  | EmptyUnionRule => skipEmptyUnionPruning options
  | UnimplementedInterfaceRule => skipUnimplementedInterfacesPruning options
  | UnusedTypeRule => skipUnusedTypesPruning options
  end.

Definition setSkipFlag (rule : Rule) (flag : bool) (options : PruneSchemaOptions)
  : PruneSchemaOptions :=
  {| skipPruning := skipPruning options;
     skipEmptyCompositeTypePruning :=
       if decide (rule = EmptyCompositeRule) then flag
       else skipEmptyCompositeTypePruning options;
     skipEmptyUnionPruning :=
       if decide (rule = EmptyUnionRule) then flag
       else skipEmptyUnionPruning options;
     skipUnimplementedInterfacesPruning :=
       if decide (rule = UnimplementedInterfaceRule) then flag
       else skipUnimplementedInterfacesPruning options;
     skipUnusedTypesPruning :=
       if decide (rule = UnusedTypeRule) then flag
       else skipUnusedTypesPruning options |}.

(** An object, interface or input object type without fields; a union
    without member types. *)
Definition isEmptyComposite (type : GraphQLNamedType) : bool :=
  match definition type with
  | GraphQLObjectType fields _ => isEmpty fields
  | GraphQLInterfaceType fields _ => isEmpty fields
  | GraphQLInputObjectType fields => isEmpty fields
  | _ => false
  end.

Definition isEmptyUnion (type : GraphQLNamedType) : bool :=
  match definition type with
  | GraphQLUnionType types => isEmpty types
  | _ => false
  end.

(** An interface whose entry in the index is there and has no key. *)
Definition isUnimplemented (implementations : gmap string (list string))
    (type : GraphQLNamedType) : bool :=
  isInterfaceType type
  && match getImplementations implementations (name type) with
     | Some implementers => isEmpty implementers
     | None => false
     end.

(** The condition of a rule on a type, its flag apart. *)
Definition ruleApplies (rule : Rule) (pruningContext : PruningContext)
    (type : GraphQLNamedType) : bool :=
  match rule with
  | EmptyCompositeRule => isEmptyComposite type
  | EmptyUnionRule => isEmptyUnion type
  | UnimplementedInterfaceRule =>
    isUnimplemented (implementations pruningContext) type
  | UnusedTypeRule => isUnused pruningContext (name type)
  end.

(** The type is up for pruning: lines 52 to 59 let it through. *)
Definition eligible (options : PruneSchemaOptions) (type : GraphQLNamedType) : bool :=
  negb (isReserved (name type))
  && negb (from_option (λ skip, skip type) false (skipPruning options)).

(** The rule removes the type. *)
Definition prunedBy (rule : Rule) (options : PruneSchemaOptions)
    (pruningContext : PruningContext) (type : GraphQLNamedType) : bool :=
  eligible options type
  && ruleApplies rule pruningContext type
  && negb (skipFlag rule options).

(** The names that a rule removes in one pass over a schema. *)
Definition removedBy (rule : Rule) (schema : GraphQLSchema)
    (options : PruneSchemaOptions) : option (gset string) :=
  pruningContext ← visitTypes (createPruningContext schema);
  Some (list_to_set (name <$> filter (λ type, prunedBy rule options pruningContext type = true)
                                     (typeMap schema))).

(** The names that a rule removes in the passes of a whole run. *)
Definition removedByInRun (rule : Rule) (schema : GraphQLSchema)
    (options : PruneSchemaOptions) : gset string :=
  ⋃ ((λ pass, default ∅ (removedBy rule (pass_schema pass) options))
       <$> passes schema options).

(** ** The content of the implementation index *)

(** The index holds exactly the pairs of a relation between type names and
    interface names: an entry for each interface that the relation gives an
    implementer, with these implementers as its keys. *)
Definition indexes (declared : string → string → Prop)
    (implementations : gmap string (list string)) : Prop :=
  ∀ iface,
    match getImplementations implementations iface with
    | Some keys => keys ≠ [] ∧ ∀ typeName, typeName ∈ keys ↔ declared typeName iface
    | None => ∀ typeName, ¬ declared typeName iface
    end.

(** ** Schemas to run the functions on *)

Definition namedType (typeName : string) (definition : TypeDefinition)
  : GraphQLNamedType :=
  {| name := typeName; definition := definition |}.

Definition field (fieldName typeName : string) : GraphQLField :=
  {| field_name := fieldName; field_type := NamedTypeRef typeName; field_args := [] |}.

Definition querySchema (types : list GraphQLNamedType)
    (directives : list GraphQLDirective) : GraphQLSchema :=
  {| typeMap := types;
     directives := directives;
     queryType := Some "Query";
     mutationType := None;
     subscriptionType := None |}.

(** [type Query { item: Empty }  type Empty] *)
Definition emptyObjectSchema : GraphQLSchema :=
  querySchema
    [ namedType "Query" (GraphQLObjectType [field "item" "Empty"] []);
      namedType "Empty" (GraphQLObjectType [] []) ]
    [].

(** [type Query { node: Node }  interface Node { id: ID }  scalar ID]:
    no type implements [Node]. *)
Definition unimplementedSchema : GraphQLSchema :=
  querySchema
    [ namedType "Query" (GraphQLObjectType [field "node" "Node"] []);
      namedType "Node" (GraphQLInterfaceType [field "id" "ID"] []);
      namedType "ID" GraphQLScalarType ]
    [].

(** [type Query { holder: Holder }  type Holder { choice: Choice }
    union Choice]: the union has no member. *)
Definition cascadeSchema : GraphQLSchema :=
  querySchema
    [ namedType "Query" (GraphQLObjectType [field "holder" "Holder"] []);
      namedType "Holder" (GraphQLObjectType [field "choice" "Choice"] []);
      namedType "Choice" (GraphQLUnionType []) ]
    [].

(** [type Query { find(term: String): [String!] }  scalar String
    type Stray { label: String }  type __Internal { label: String }
    directive @tag(label: String)] *)
Definition searchSchema : GraphQLSchema :=
  querySchema
    [ namedType "Query"
        (GraphQLObjectType
           [ {| field_name := "find";
                field_type := GraphQLList (GraphQLNonNull (NamedTypeRef "String"));
                field_args := [ {| arg_name := "term";
                                   arg_type := NamedTypeRef "String" |} ] |} ]
           []);
      namedType "String" GraphQLScalarType;
      namedType "Stray" (GraphQLObjectType [field "label" "String"] []);
      namedType "__Internal" (GraphQLObjectType [field "label" "String"] []) ]
    [ {| directive_name := "tag";
         directive_args := [ {| arg_name := "label";
                                arg_type := NamedTypeRef "String" |} ] |} ].

(** A schema with cycles: objects that refer to each other through their
    fields, an interface and its implementer, an input object that refers
    to itself.
    [type Query { author(filter: Filter): Author }
    type Author implements Node { id: ID, posts: [Post] }
    type Post implements Node { id: ID, author: Author, next: Node }
    interface Node { id: ID }  input Filter { not: Filter, id: ID }
    scalar ID  type Orphan { twin: Twin }  type Twin { orphan: Orphan }] *)
Definition cyclicSchema : GraphQLSchema :=
  querySchema
    [ namedType "Query"
        (GraphQLObjectType
           [ {| field_name := "author";
                field_type := NamedTypeRef "Author";
                field_args := [ {| arg_name := "filter";
                                   arg_type := NamedTypeRef "Filter" |} ] |} ]
           []);
      namedType "Author"
        (GraphQLObjectType
           [ field "id" "ID";
             {| field_name := "posts";
                field_type := GraphQLList (NamedTypeRef "Post");
                field_args := [] |} ]
           ["Node"]);
      namedType "Post"
        (GraphQLObjectType
           [field "id" "ID"; field "author" "Author"; field "next" "Node"]
           ["Node"]);
      namedType "Node" (GraphQLInterfaceType [field "id" "ID"] []);
      namedType "Filter"
        (GraphQLInputObjectType
           [ {| input_field_name := "not"; input_field_type := NamedTypeRef "Filter" |};
             {| input_field_name := "id"; input_field_type := NamedTypeRef "ID" |} ]);
      namedType "ID" GraphQLScalarType;
      namedType "Orphan" (GraphQLObjectType [field "twin" "Twin"] []);
      namedType "Twin" (GraphQLObjectType [field "orphan" "Orphan"] []) ]
    [].

(** Options that exempt the types of one name. *)
Definition keepNamed (typeName : string) : PruneSchemaOptions :=
  {| skipPruning := Some (λ type, String.eqb (name type) typeName);
     skipEmptyCompositeTypePruning := false;
     skipEmptyUnionPruning := false;
     skipUnimplementedInterfacesPruning := false;
     skipUnusedTypesPruning := false |}.

(** ** Calls and kinds *)

(** The kind of type that a call in a position expects: a member of
    [NamedOutputType] for [visitOutputType], of [NamedInputType] for
    [visitInputType]. *)
Definition kindFits (position : Position) (type : GraphQLNamedType) : bool :=
  match position with
  | OutputPosition => isOutputType type
  | InputPosition => isInputType type
  end.

(** A call was made with a type of the type map, of the kind that its
    position expects. *)
Definition callFits (schema : GraphQLSchema) (call : Visit) : Prop :=
  ∃ type, getType schema (visit_name call) = Some type
          ∧ kindFits (visit_position call) type = true.

(** Options that leave the unused-type rule alone in force. *)
Definition unusedOnly : PruneSchemaOptions :=
  {| skipPruning := None;
     skipEmptyCompositeTypePruning := true;
     skipEmptyUnionPruning := true;
     skipUnimplementedInterfacesPruning := false;
     skipUnusedTypesPruning := false |}.

(** [type Query { id: ID }  interface Node { id: ID }  scalar ID]: no field
    refers to [Node] and no type implements it. *)
Definition unreferencedSchema : GraphQLSchema :=
  querySchema
    [ namedType "Query" (GraphQLObjectType [field "id" "ID"] []);
      namedType "Node" (GraphQLInterfaceType [field "id" "ID"] []);
      namedType "ID" GraphQLScalarType ]
    [].

(** A pruning context with an entry without keys added to the index for
    [typeName]; [createPruningContext] does not build such an entry. *)
Definition withEmptyEntry (typeName : string) (pruningContext : PruningContext)
  : PruningContext :=
  {| schema := schema pruningContext;
     unusedTypes := unusedTypes pruningContext;
     implementations := <[typeName := []]> (implementations pruningContext) |}.

(** The pruning context after [visitTypes] over a schema of [Query], [Node]
    and [ID] without implementers, with the empty entry for [Node]: [Node]
    is flagged as unused when no field refers to it. *)
Definition emptyEntryContext (graph : GraphQLSchema) (nodeUnused : bool)
  : PruningContext :=
  {| schema := graph;
     unusedTypes := {["Query" := false; "Node" := nodeUnused; "ID" := false]};
     implementations := {["Node" := []]} |}.

Definition nodeInterface : GraphQLNamedType :=
  namedType "Node" (GraphQLInterfaceType [field "id" "ID"] []).

(** * Loops *)

Lemma foldl_invariant {A B : Type} (f : A → B → A) (P : list B → A → Prop)
    (xs : list B) (a : A) :
  P [] a →
  (∀ done x acc, P done acc → P (done ++ [x]) (f acc x)) →
  P xs (foldl f a xs).
Proof.
  intros Hinit Hstep. induction xs as [|x xs IH] using rev_ind; [done|].
  rewrite foldl_snoc. by apply Hstep.
Qed.

Lemma forOf_invariant {A S : Type} (body : S → A → option S)
    (P : list A → S → Prop) (xs : list A) (st st' : S) :
  forOf body st xs = Some st' →
  P [] st →
  (∀ done x st1 st2,
     x ∈ xs → P done st1 → body st1 x = Some st2 → P (done ++ [x]) st2) →
  P xs st'.
Proof.
  revert P st. induction xs as [|x xs IH]; intros P st Hrun Hinit Hstep.
  - by simplify_eq/=.
  - simpl in Hrun. destruct (body st x) as [st1|] eqn:Hbody; [|done].
    apply (IH (λ done, P (x :: done)) st1 Hrun).
    + apply (Hstep [] x st st1); [left|done..].
    + intros done y st2 st3 Hy HP Hy_body.
      apply (Hstep (x :: done) y st2 st3); [by right|done..].
Qed.

Lemma forOf_succeeds {A S : Type} (body : S → A → option S) (Q : S → Prop)
    (xs : list A) (st : S) :
  Q st →
  (∀ x st1, x ∈ xs → Q st1 → ∃ st2, body st1 x = Some st2 ∧ Q st2) →
  ∃ st', forOf body st xs = Some st' ∧ Q st'.
Proof.
  revert st. induction xs as [|x xs IH]; intros st HQ Hbody; [by eexists|].
  destruct (Hbody x st) as (st1 & Hx & HQ1); [left|done|].
  simpl. rewrite Hx. apply IH; [done|].
  intros y st2 Hy. apply Hbody. by right.
Qed.

(** * The type map *)

Lemma getType_Some schema typeName type :
  getType schema typeName = Some type →
  type ∈ typeMap schema ∧ name type = typeName.
Proof.
  unfold getType. intros [Hin Heq]%find_some. split.
  - by apply list_elem_of_In.
  - by apply String.eqb_eq.
Qed.

Lemma getType_name schema typeName type :
  getType schema typeName = Some type → getType schema (name type) = Some type.
Proof. intros H. by destruct (getType_Some _ _ _ H) as [_ ->]. Qed.

Lemma getType_is_Some schema type :
  type ∈ typeMap schema → is_Some (getType schema (name type)).
Proof.
  intros Hin. destruct (getType schema (name type)) eqn:Hfind; [by eexists|].
  unfold getType in Hfind.
  eapply find_none in Hfind; [|by apply list_elem_of_In].
  simpl in Hfind. by rewrite String.eqb_refl in Hfind.
Qed.

Lemma getType_elem_of schema type :
  NoDup (typeNames schema) → type ∈ typeMap schema →
  getType schema (name type) = Some type.
Proof.
  unfold getType, typeNames.
  induction (typeMap schema) as [|type' types IH]; intros Hnodup Hin.
  - by apply elem_of_nil in Hin.
  - rewrite fmap_cons in Hnodup. apply NoDup_cons in Hnodup as [Hfresh Hnodup].
    simpl. destruct (String.eqb_spec (name type') (name type)) as [Heq|Hne].
    + apply elem_of_cons in Hin as [->|Hin]; [done|].
      exfalso. apply Hfresh. rewrite Heq. by apply list_elem_of_fmap_2.
    + apply elem_of_cons in Hin as [->|Hin]; [done|]. by apply IH.
Qed.

(** * The implementation index *)

Lemma indexes_iff declared declared' implementations :
  (∀ typeName iface, declared typeName iface ↔ declared' typeName iface) →
  indexes declared implementations → indexes declared' implementations.
Proof.
  intros Hiff Hindex iface. specialize (Hindex iface).
  destruct (getImplementations implementations iface) as [keys|].
  - destruct Hindex as [Hne Hkeys]. split; [done|].
    intros typeName. by rewrite Hkeys.
  - intros typeName. by rewrite <-Hiff.
Qed.

Lemma elem_of_setKey key (keys : list string) typeName :
  typeName ∈ setKey key keys ↔ typeName ∈ keys ∨ typeName = key.
Proof.
  unfold setKey. case_decide as Hin.
  - split; [by left|]. by intros [?| ->].
  - rewrite elem_of_app, list_elem_of_singleton. done.
Qed.

Lemma setKey_nonempty key (keys : list string) : setKey key keys ≠ [].
Proof.
  unfold setKey. case_decide as Hin.
  - intros ->. by apply elem_of_nil in Hin.
  - by destruct keys.
Qed.

Lemma recordImplementation_indexes declared typeName implementations iface :
  indexes declared implementations →
  indexes (λ typeName' iface',
             declared typeName' iface' ∨ (typeName' = typeName ∧ iface' = iface))
          (recordImplementation typeName implementations iface).
Proof.
  unfold indexes, recordImplementation, getImplementations.
  intros Hindex iface'.
  pose proof (Hindex iface) as Hiface.
  destruct (implementations !! iface) as [keys|] eqn:Hlookup.
  - rewrite Hlookup. destruct (decide (iface = iface')) as [<-|Hne].
    + rewrite lookup_insert_eq. destruct Hiface as [_ Hkeys].
      split; [apply setKey_nonempty|].
      intros typeName'. rewrite elem_of_setKey, Hkeys. naive_solver.
    + rewrite lookup_insert_ne by done. specialize (Hindex iface').
      destruct (implementations !! iface') as [keys'|].
      * destruct Hindex as [? Hkeys']. split; [done|].
        intros typeName'. rewrite Hkeys'. naive_solver.
      * naive_solver.
  - rewrite lookup_insert_eq. destruct (decide (iface = iface')) as [<-|Hne].
    + rewrite lookup_insert_eq. split; [apply setKey_nonempty|].
      intros typeName'. rewrite elem_of_setKey, elem_of_nil. naive_solver.
    + rewrite !lookup_insert_ne by done. specialize (Hindex iface').
      destruct (implementations !! iface') as [keys'|].
      * destruct Hindex as [? Hkeys']. split; [done|].
        intros typeName'. rewrite Hkeys'. naive_solver.
      * naive_solver.
Qed.

Lemma recordType_indexes declared implementations type :
  indexes declared implementations →
  indexes (λ typeName iface,
             declared typeName iface ∨ (typeName = name type ∧ declares type iface))
          (recordType implementations type).
Proof.
  intros Hindex. unfold recordType, declares.
  destruct (getInterfaces type) as [interfaces|].
  - eapply indexes_iff; last first.
    + apply (foldl_invariant (recordImplementation (name type))
               (λ done, indexes (λ typeName iface,
                  declared typeName iface ∨ (typeName = name type ∧ iface ∈ done)))).
      * eapply indexes_iff; [|exact Hindex].
        intros typeName iface. rewrite elem_of_nil. naive_solver.
      * intros done iface acc Hacc.
        eapply indexes_iff; [|by apply recordImplementation_indexes].
        intros typeName iface'. simpl.
        rewrite elem_of_app, list_elem_of_singleton. naive_solver.
    + intros typeName iface. simpl. naive_solver.
  - eapply indexes_iff; [|exact Hindex]. naive_solver.
Qed.

Lemma createPruningContext_indexes schema :
  indexes (λ typeName iface,
             ∃ type, type ∈ typeMap schema ∧ name type = typeName ∧ declares type iface)
          (implementations (createPruningContext schema)).
Proof.
  simpl.
  apply (foldl_invariant recordType
           (λ done, indexes (λ typeName iface,
              ∃ type, type ∈ done ∧ name type = typeName ∧ declares type iface))).
  - intros iface. unfold getImplementations. rewrite lookup_empty.
    intros typeName (type & Hin & _). by apply elem_of_nil in Hin.
  - intros done type acc Hacc.
    eapply indexes_iff; [|by apply recordType_indexes].
    intros typeName iface. simpl. split.
    + intros [(type' & Hin & Hname & Hdecl)|[-> Hdecl]].
      * exists type'. rewrite elem_of_app. naive_solver.
      * exists type. rewrite elem_of_app, list_elem_of_singleton. naive_solver.
    + intros (type' & Hin & Hname & Hdecl).
      apply elem_of_app in Hin as [Hin|Hin%list_elem_of_singleton]; naive_solver.
Qed.

(** C3: after [createPruningContext], an interface name has an entry in
    the index exactly when some type of the graph declares that it
    implements the interface; the keys of an entry are the names of the
    declaring types, so an entry is never empty. *)
Theorem implementations_entry_iff_declared schema iface :
  let index := implementations (createPruningContext schema) in
  (is_Some (getImplementations index iface)
   ↔ ∃ type, type ∈ typeMap schema ∧ declares type iface)
  ∧ (∀ keys, getImplementations index iface = Some keys →
       keys ≠ []
       ∧ ∀ typeName, typeName ∈ keys
           ↔ ∃ type, type ∈ typeMap schema ∧ name type = typeName ∧ declares type iface).
Proof.
  intros index. pose proof (createPruningContext_indexes schema iface) as Hindex.
  fold index in Hindex.
  destruct (getImplementations index iface) as [keys|] eqn:Hentry.
  - destruct Hindex as [Hne Hkeys]. split.
    + split; [|by eexists]. intros _.
      destruct keys as [|typeName keys]; [done|].
      destruct (proj1 (Hkeys typeName)) as (type & ? & ? & ?); [left|]. eauto.
    + intros keys' [= <-]. done.
  - split; [|done]. split; [by intros [? ?]|].
    intros (type & Hin & Hdecl). exfalso. apply (Hindex (name type)). eauto.
Qed.

(** * The traversal is made of steps *)

Lemma forOf_related {A S : Type} (R : relation S) `{!PreOrder R}
    (body : S → A → option S) (xs : list A) (st st' : S) :
  forOf body st xs = Some st' →
  (∀ x st1 st2, x ∈ xs → body st1 x = Some st2 → R st1 st2) →
  R st st'.
Proof.
  intros Hrun Hbody.
  apply (forOf_invariant body (λ _ st1, R st st1) xs st st' Hrun); [done|].
  intros done x st1 st2 Hx Hst1 Hx_body. etrans; eauto.
Qed.

Lemma visitInputType_steps fuel schema st type st' :
  visitInputType fuel schema st type = Some st' → rtc step st st'.
Proof.
  revert st type st'. induction fuel as [|fuel IH]; intros st type st' Hrun; [done|].
  simpl in Hrun. case_decide as Hvisited.
  - simplify_eq. apply rtc_once. by constructor.
  - eapply rtc_l; [by apply (step_mark InputPosition)|].
    destruct (definition type); simplify_eq; try done.
    eapply (forOf_related (rtc step)); [exact Hrun|].
    intros field st1 st2 _ (namedType & _ & Hvisit)%bind_Some. eauto.
Qed.

Lemma visitArgs_steps fuel schema st args st' :
  visitArgs fuel schema st args = Some st' → rtc step st st'.
Proof.
  intros Hrun. eapply (forOf_related (rtc step)); [exact Hrun|].
  intros arg st1 st2 _ (namedType & _ & Hvisit)%bind_Some.
  by eapply visitInputType_steps.
Qed.

Lemma visitOutputType_steps fuel schema implementations st type st' :
  visitOutputType fuel schema implementations st type = Some st' → rtc step st st'.
Proof.
  revert st type st'. induction fuel as [|fuel IH]; intros st type st' Hrun; [done|].
  assert (Hnames : ∀ typeNames st1 st2,
    forOf (λ st typeName,
             type ← getType schema typeName;
             visitOutputType fuel schema implementations st type) st1 typeNames = Some st2 →
    rtc step st1 st2).
  { intros typeNames st1 st2 Hnames.
    eapply (forOf_related (rtc step)); [exact Hnames|].
    intros typeName st3 st4 _ (namedType & _ & Hvisit)%bind_Some. eauto. }
  assert (Hfields : ∀ fields st1 st2,
    forOf (λ st field,
             namedType ← getType schema (getNamedType (field_type field));
             st ← visitOutputType fuel schema implementations st namedType;
             visitArgs fuel schema st (field_args field)) st1 fields = Some st2 →
    rtc step st1 st2).
  { intros fields st1 st2 Hfields.
    eapply (forOf_related (rtc step)); [exact Hfields|].
    intros field st3 st4 _ (namedType & _ & (st5 & Hvisit & Hargs)%bind_Some)%bind_Some.
    etrans; [by eapply IH|by eapply visitArgs_steps]. }
  simpl in Hrun. case_decide as Hvisited.
  - simplify_eq. apply rtc_once. by constructor.
  - eapply rtc_l; [by apply (step_mark OutputPosition)|].
    destruct (definition type) as [|fields interfaces|fields interfaces|types| |];
      simplify_eq/=; try done.
    + apply bind_Some in Hrun as (st1 & Hloop & Hloop').
      etrans; eauto.
    + apply bind_Some in Hrun as (st1 & Hloop & (st2 & Hloop' & Hloop'')%bind_Some).
      etrans; [eauto|]. etrans; [|eauto].
      destruct (getImplementations implementations (name type)); simplify_eq;
        [eauto|reflexivity].
    + eauto.
Qed.

(** * What steps preserve *)

Lemma steps_visitedTypes st st' :
  rtc step st st' → visitedTypes st ⊆ visitedTypes st'.
Proof.
  induction 1 as [|st st1 st' Hstep _ IH]; [done|].
  etrans; [|exact IH]. destruct Hstep; simpl; set_solver.
Qed.

(** The flag of a marked type is [false], and a step writes no other
    flag. *)
Lemma steps_unused st st' typeName :
  rtc step st st' →
  unused st' !! typeName
  = if decide (typeName ∈ visitedTypes st' ∖ visitedTypes st) then Some false
    else unused st !! typeName.
Proof.
  induction 1 as [st|st st1 st' Hstep Hsteps IH].
  - case_decide; [set_solver|done].
  - rewrite IH. pose proof (steps_visitedTypes _ _ Hsteps) as Hmono.
    destruct Hstep as [position typeName' st Hin|position typeName' st Hnotin];
      simpl in *.
    + repeat case_decide; set_solver.
    + destruct (decide (typeName = typeName')) as [->|Hne].
      * rewrite lookup_insert_eq. repeat case_decide; set_solver.
      * rewrite lookup_insert_ne by done. repeat case_decide; set_solver.
Qed.

Lemma markedNames_cons call calls :
  markedNames (call :: calls)
  = if visit_marked call then visit_name call :: markedNames calls
    else markedNames calls.
Proof.
  unfold markedNames. destruct (visit_marked call) eqn:Hmarked.
  - by rewrite filter_cons_True by done.
  - rewrite filter_cons_False; [done|]. by rewrite Hmarked.
Qed.

(** The journal grows at its head, by one call per step; a step that marks
    a name puts the name in the visited set, and no name is marked twice. *)
Lemma steps_markedNames st st' :
  rtc step st st' →
  NoDup (markedNames (journal st)) →
  (∀ typeName, typeName ∈ markedNames (journal st) → typeName ∈ visitedTypes st) →
  NoDup (markedNames (journal st'))
  ∧ ∀ typeName, typeName ∈ markedNames (journal st') → typeName ∈ visitedTypes st'.
Proof.
  induction 1 as [st|st st1 st' Hstep _ IH]; intros Hnodup Hmarked; [done|].
  apply IH.
  - destruct Hstep as [position typeName st Hin|position typeName st Hnotin];
      simpl; rewrite markedNames_cons; simpl; [done|].
    apply NoDup_cons. split; [|done]. intros Hold. by apply Hnotin, Hmarked.
  - destruct Hstep as [position typeName st Hin|position typeName st Hnotin];
      simpl; rewrite markedNames_cons; simpl; [done|].
    intros typeName' [->|Hold]%elem_of_cons; [set_solver|].
    apply elem_of_union_r. by apply Hmarked.
Qed.

Lemma steps_journal_visited st st' typeName :
  rtc step st st' →
  (typeName ∈ visitedTypes st → typeName ∈ markedNames (journal st)) →
  typeName ∈ visitedTypes st' → typeName ∈ markedNames (journal st').
Proof.
  induction 1 as [st|st st1 st' Hstep _ IH]; intros Hmarked; [done|].
  apply IH.
  destruct Hstep as [position typeName' st Hin|position typeName' st Hnotin];
    simpl; rewrite markedNames_cons; simpl; [done|].
  intros [->%elem_of_singleton|Hold]%elem_of_union; [left|right]. by apply Hmarked.
Qed.

(** * Well-formed schemas *)

Lemma resolvesTo_true schema kind typeName :
  resolvesTo schema kind typeName = true
  ↔ ∃ type, getType schema typeName = Some type ∧ kind type = true.
Proof.
  unfold resolvesTo. destruct (getType schema typeName) as [type|]; naive_solver.
Qed.

Lemma forallb_elem_of {A : Type} (f : A → bool) (xs : list A) (x : A) :
  forallb f xs = true → x ∈ xs → f x = true.
Proof. rewrite forallb_forall. intros Hall Hin. by apply Hall, list_elem_of_In. Qed.

Lemma wellFormed_NoDup schema :
  wellFormed schema = true → NoDup (typeNames schema).
Proof.
  unfold wellFormed. rewrite !andb_true_iff, bool_decide_eq_true. naive_solver.
Qed.

Lemma wellFormed_type schema type :
  wellFormed schema = true → type ∈ typeMap schema →
  wellFormedType schema type = true.
Proof.
  unfold wellFormed. rewrite !andb_true_iff. intros [[[_ Htypes] _] _].
  by apply forallb_elem_of.
Qed.

Lemma wellFormed_directive schema directive :
  wellFormed schema = true → directive ∈ directives schema →
  wellFormedArgs schema (directive_args directive) = true.
Proof.
  unfold wellFormed. rewrite !andb_true_iff. intros [[_ Hdirectives] _].
  by apply (forallb_elem_of (λ directive, wellFormedArgs schema (directive_args directive))).
Qed.

Lemma wellFormed_root schema rootName :
  wellFormed schema = true → rootName ∈ getRootTypes schema →
  resolvesTo schema isOutputType rootName = true.
Proof.
  unfold wellFormed. rewrite !andb_true_iff. intros [_ Hroots].
  by apply forallb_elem_of.
Qed.

Lemma wellFormed_getType schema type :
  wellFormed schema = true → type ∈ typeMap schema →
  getType schema (name type) = Some type.
Proof. intros Hwf. apply getType_elem_of. by apply wellFormed_NoDup. Qed.

(** The types of an entry of the index are output types of the type map. *)
Lemma wellFormed_implementer schema iface implementers implementer :
  wellFormed schema = true →
  getImplementations (implementations (createPruningContext schema)) iface
  = Some implementers →
  implementer ∈ implementers →
  resolvesTo schema isOutputType implementer = true.
Proof.
  intros Hwf Hentry Hin.
  pose proof (createPruningContext_indexes schema iface) as Hindex.
  rewrite Hentry in Hindex. destruct Hindex as [_ Hdeclared].
  apply Hdeclared in Hin as (type & Htype & <- & interfaces & Hinterfaces & _).
  apply resolvesTo_true. exists type. split; [by apply wellFormed_getType|].
  unfold getInterfaces in Hinterfaces. unfold isOutputType.
  by destruct (definition type).
Qed.

(** * The traversal expands what it marks *)

Lemma expanded_mono schema implementations (visited visited' : gset string) typeName :
  visited ⊆ visited' →
  expanded schema implementations visited typeName →
  expanded schema implementations visited' typeName.
Proof. intros Hsub Hexp type Htype reference Href. apply Hsub. by eapply Hexp. Qed.

#[global] Instance traverses_preorder schema implementations :
  PreOrder (traverses schema implementations).
Proof.
  split.
  - intros st. split; [done|]. intros typeName Hin Hnotin. by destruct Hnotin.
  - intros st st1 st2 [Hsteps Hexp] [Hsteps1 Hexp1]. split; [by etrans|].
    intros typeName Hin Hnotin.
    destruct (decide (typeName ∈ visitedTypes st1)) as [Hin1|Hnotin1].
    + eapply expanded_mono; [by apply steps_visitedTypes|]. by apply Hexp.
    + by apply Hexp1.
Qed.

Lemma traverses_visitedTypes schema implementations st st' :
  traverses schema implementations st st' → visitedTypes st ⊆ visitedTypes st'.
Proof. intros [Hsteps _]. by apply steps_visitedTypes. Qed.

Lemma traverses_skip schema implementations position typeName st :
  typeName ∈ visitedTypes st →
  traverses schema implementations st (skipVisited position typeName st).
Proof.
  intros Hin. split; [apply rtc_once; by constructor|].
  intros typeName' Hin' Hnotin'. by destruct Hnotin'.
Qed.

Lemma traverses_mark schema implementations position type st st' :
  name type ∉ visitedTypes st →
  getType schema (name type) = Some type →
  traverses schema implementations (markVisited position (name type) st) st' →
  (∀ reference, reference ∈ references implementations type →
     reference ∈ visitedTypes st') →
  traverses schema implementations st st'.
Proof.
  intros Hnotin Htype [Hsteps Hexp] Hrefs. split.
  - eapply rtc_l; [by apply step_mark|done].
  - intros typeName Hin' Hnotin'.
    destruct (decide (typeName = name type)) as [->|Hne].
    + intros type' Htype'. by simplify_eq.
    + apply Hexp; [done|]. simpl. set_solver.
Qed.

Lemma forOf_traverses {A : Type} schema implementations
    (body : Marking → A → option Marking) (refs : A → list string)
    (xs : list A) (st st' : Marking) :
  forOf body st xs = Some st' →
  (∀ x st1 st2, x ∈ xs → body st1 x = Some st2 →
     traverses schema implementations st1 st2
     ∧ ∀ reference, reference ∈ refs x → reference ∈ visitedTypes st2) →
  traverses schema implementations st st'
  ∧ ∀ x reference, x ∈ xs → reference ∈ refs x → reference ∈ visitedTypes st'.
Proof.
  intros Hrun Hbody.
  apply (forOf_invariant body
           (λ done st1, traverses schema implementations st st1
              ∧ ∀ x reference, x ∈ done → reference ∈ refs x →
                  reference ∈ visitedTypes st1) xs st st' Hrun).
  - split; [done|]. intros x reference Hx. by apply elem_of_nil in Hx.
  - intros done x st1 st2 Hx [Htrav Hdone] Hx_body.
    destruct (Hbody x st1 st2 Hx Hx_body) as [Htrav' Hrefs]. split; [by etrans|].
    intros y reference [Hy|Hy%list_elem_of_singleton]%elem_of_app Href.
    + eapply traverses_visitedTypes; [exact Htrav'|]. by eapply Hdone.
    + subst y. by apply Hrefs.
Qed.

(** The traversal of a well-formed graph. *)
Section Traversal.
Variable graph : GraphQLSchema.
Hypothesis Hwf : wellFormed graph = true.

Lemma visitInputType_traverses fuel implementations st type st' :
  getType graph (name type) = Some type →
  isInputType type = true →
  visitInputType fuel graph st type = Some st' →
  traverses graph implementations st st' ∧ name type ∈ visitedTypes st'.
Proof.
  revert st type st'.
  induction fuel as [|fuel IH]; intros st type st' Htype Hkind Hrun; [done|].
  simpl in Hrun. case_decide as Hvisited.
  - simplify_eq. split; [by apply traverses_skip|done].
  - assert (Hmarked : ∀ st1, traverses graph implementations
                               (markVisited InputPosition (name type) st) st1 →
                             name type ∈ visitedTypes st1).
    { intros st1 Htrav. eapply traverses_visitedTypes; [exact Htrav|].
      simpl. set_solver. }
    pose proof (wellFormed_type graph type Hwf (proj1 (getType_Some _ _ _ Htype)))
      as Hwft.
    unfold isInputType in Hkind. unfold wellFormedType in Hwft.
    destruct (definition type) as [| | | | |fields] eqn:Hdef; simplify_eq.
    + split; [|set_solver]. eapply traverses_mark; [done..| |]; [done|].
      unfold references. rewrite Hdef. by intros reference ?%elem_of_nil.
    + split; [|set_solver]. eapply traverses_mark; [done..| |]; [done|].
      unfold references. rewrite Hdef. by intros reference ?%elem_of_nil.
    + apply (forOf_traverses graph implementations _
               (λ field, [getNamedType (input_field_type field)])) in Hrun
        as [Htrav Hrefs].
      * split; [|by apply Hmarked]. eapply traverses_mark; [done..|].
        unfold references. rewrite Hdef.
        intros reference (field & -> & Hfield)%list_elem_of_fmap.
        eapply Hrefs; [done|]. by left.
      * intros field st1 st2 Hfield (namedType & Hnamed & Hvisit)%bind_Some.
        eapply forallb_elem_of in Hwft; [|exact Hfield].
        apply resolvesTo_true in Hwft as (namedType' & ? & Hkind'). simplify_eq.
        destruct (IH st1 namedType st2) as [Htrav Hin];
          [by eapply getType_name|done..|].
        split; [done|]. intros reference ->%list_elem_of_singleton.
        by destruct (getType_Some _ _ _ Hnamed) as [_ <-].
Qed.

Lemma visitArgs_traverses fuel implementations st args st' :
  wellFormedArgs graph args = true →
  visitArgs fuel graph st args = Some st' →
  traverses graph implementations st st'
  ∧ ∀ arg, arg ∈ args → getNamedType (arg_type arg) ∈ visitedTypes st'.
Proof.
  intros Hargs Hrun.
  apply (forOf_traverses graph implementations _
           (λ arg, [getNamedType (arg_type arg)])) in Hrun as [Htrav Hrefs].
  - split; [done|]. intros arg Harg. eapply Hrefs; [done|]. by left.
  - intros arg st1 st2 Harg (type & Htype & Hvisit)%bind_Some.
    eapply forallb_elem_of in Hargs; [|exact Harg].
    apply resolvesTo_true in Hargs as (type' & ? & Hkind). simplify_eq.
    destruct (visitInputType_traverses fuel implementations st1 type st2)
      as [Htrav Hin]; [by eapply getType_name|done..|].
    split; [done|]. intros reference ->%list_elem_of_singleton.
    by destruct (getType_Some _ _ _ Htype) as [_ <-].
Qed.

Lemma visitOutputType_traverses fuel st type st' :
  let index := implementations (createPruningContext graph) in
  getType graph (name type) = Some type →
  isOutputType type = true →
  visitOutputType fuel graph index st type = Some st' →
  traverses graph index st st' ∧ name type ∈ visitedTypes st'.
Proof.
  intros index. revert st type st'.
  induction fuel as [|fuel IH]; intros st type st' Htype Hkind Hrun; [done|].
  assert (Hnames : ∀ typeNames st1 st2,
    forallb (resolvesTo graph isOutputType) typeNames = true →
    forOf (λ st typeName,
             type ← getType graph typeName;
             visitOutputType fuel graph index st type) st1 typeNames = Some st2 →
    traverses graph index st1 st2
    ∧ ∀ typeName, typeName ∈ typeNames → typeName ∈ visitedTypes st2).
  { intros typeNames st1 st2 Hall Hloop.
    apply (forOf_traverses graph index _ (λ typeName, [typeName])) in Hloop
      as [Htrav Hrefs].
    - split; [done|]. intros typeName Hin. eapply Hrefs; [done|]. by left.
    - intros typeName st3 st4 Hin (type' & Htype' & Hvisit)%bind_Some.
      eapply forallb_elem_of in Hall; [|exact Hin].
      apply resolvesTo_true in Hall as (type'' & ? & Hkind'). simplify_eq.
      destruct (IH st3 type' st4) as [Htrav Hin']; [by eapply getType_name|done..|].
      split; [done|]. intros reference ->%list_elem_of_singleton.
      by destruct (getType_Some _ _ _ Htype') as [_ <-]. }
  assert (Hfields : ∀ fields st1 st2,
    forallb (wellFormedField graph) fields = true →
    forOf (λ st field,
             namedType ← getType graph (getNamedType (field_type field));
             st ← visitOutputType fuel graph index st namedType;
             visitArgs fuel graph st (field_args field)) st1 fields = Some st2 →
    traverses graph index st1 st2
    ∧ ∀ reference, reference ∈ fields ≫= fieldReferences →
        reference ∈ visitedTypes st2).
  { intros fields st1 st2 Hall Hloop.
    apply (forOf_traverses graph index _ fieldReferences) in Hloop
      as [Htrav Hrefs].
    - split; [done|].
      intros reference (field & Href & Hfield)%list_elem_of_bind. eauto.
    - intros field st3 st4 Hfield
        (namedType & Hnamed & (st5 & Hvisit & Hargs)%bind_Some)%bind_Some.
      eapply forallb_elem_of in Hall; [|exact Hfield].
      apply andb_true_iff in Hall as [Hfield_type Hfield_args].
      apply resolvesTo_true in Hfield_type as (namedType' & ? & Hkind').
      simplify_eq.
      destruct (IH st3 namedType st5) as [Htrav Hin];
        [by eapply getType_name|done..|].
      destruct (visitArgs_traverses fuel index st5 (field_args field) st4)
        as [Htrav' Hargs_in]; [done..|].
      split; [by etrans|].
      intros reference [->|Harg]%elem_of_cons.
      + eapply traverses_visitedTypes; [exact Htrav'|].
        by destruct (getType_Some _ _ _ Hnamed) as [_ <-].
      + apply list_elem_of_fmap in Harg as (arg & -> & Harg). by apply Hargs_in. }
  simpl in Hrun. case_decide as Hvisited.
  - simplify_eq. split; [by apply traverses_skip|done].
  - assert (Hmarked : ∀ st1, traverses graph index
                               (markVisited OutputPosition (name type) st) st1 →
                             name type ∈ visitedTypes st1).
    { intros st1 Htrav. eapply traverses_visitedTypes; [exact Htrav|].
      simpl. set_solver. }
    pose proof (wellFormed_type graph type Hwf (proj1 (getType_Some _ _ _ Htype)))
      as Hwft.
    unfold isOutputType in Hkind. unfold wellFormedType in Hwft.
    destruct (definition type) as [|fields interfaces|fields interfaces|types| |]
      eqn:Hdef; simplify_eq.
    + split; [|set_solver]. eapply traverses_mark; [done..| |]; [done|].
      unfold references. rewrite Hdef. by intros reference ?%elem_of_nil.
    + apply andb_true_iff in Hwft as [Hwf_fields Hwf_interfaces].
      apply bind_Some in Hrun as (st1 & Hloop & Hloop').
      apply Hfields in Hloop as [Htrav Hrefs]; [|done].
      apply Hnames in Hloop' as [Htrav' Hrefs']; [|done].
      assert (traverses graph index (markVisited OutputPosition (name type) st) st')
        as Hall by (by etrans).
      split; [|by apply Hmarked]. eapply traverses_mark; [done..|].
      unfold references. rewrite Hdef.
      intros reference [Href|Href]%elem_of_app; [|by apply Hrefs'].
      eapply traverses_visitedTypes; [exact Htrav'|]. by apply Hrefs.
    + apply andb_true_iff in Hwft as [Hwf_fields Hwf_interfaces].
      apply bind_Some in Hrun
        as (st1 & Hloop & (st2 & Hloop' & Hloop'')%bind_Some).
      apply Hfields in Hloop as [Htrav Hrefs]; [|done].
      apply Hnames in Hloop'' as [Htrav'' Hrefs'']; [|done].
      assert (traverses graph index st1 st2
              ∧ ∀ reference,
                  reference ∈ default [] (getImplementations index (name type)) →
                  reference ∈ visitedTypes st2) as [Htrav' Hrefs'].
      { destruct (getImplementations index (name type)) as [implementers|] eqn:Hentry.
        - apply Hnames in Hloop'; [done|].
          apply forallb_forall. intros implementer Hin%list_elem_of_In.
          by eapply wellFormed_implementer.
        - simplify_eq/=. split; [done|]. by intros reference ?%elem_of_nil. }
      assert (traverses graph index (markVisited OutputPosition (name type) st) st')
        as Hall by (etrans; [exact Htrav|by etrans]).
      split; [|by apply Hmarked]. eapply traverses_mark; [done..|].
      unfold references. rewrite Hdef.
      intros reference [Href|[Href|Href]%elem_of_app]%elem_of_app.
      * eapply traverses_visitedTypes; [etrans; [exact Htrav'|exact Htrav'']|].
        by apply Hrefs.
      * eapply traverses_visitedTypes; [exact Htrav''|]. by apply Hrefs'.
      * by apply Hrefs''.
    + apply Hnames in Hrun as [Htrav Hrefs]; [|done].
      split; [|by apply Hmarked]. eapply traverses_mark; [done..|].
      unfold references. by rewrite Hdef.
    + split; [|set_solver]. eapply traverses_mark; [done..| |]; [done|].
      unfold references. rewrite Hdef. by intros reference ?%elem_of_nil.
Qed.

End Traversal.

(** * The traversal returns *)

Lemma unvisited_mono schema st st' :
  visitedTypes st ⊆ visitedTypes st' →
  size (unvisited schema st') ≤ size (unvisited schema st).
Proof. intros Hsub. apply subseteq_size. unfold unvisited. set_solver. Qed.

Lemma unvisited_mark schema position type st :
  type ∈ typeMap schema →
  name type ∉ visitedTypes st →
  size (unvisited schema (markVisited position (name type) st))
  < size (unvisited schema st).
Proof.
  intros Hin Hnotin. apply subset_size. unfold unvisited. simpl.
  assert (name type ∈ (list_to_set (typeNames schema) : gset string)).
  { apply elem_of_list_to_set. by apply list_elem_of_fmap_2. }
  set_solver.
Qed.

Lemma unvisited_bound schema st :
  wellFormed schema = true →
  size (unvisited schema st) < visitFuel schema.
Proof.
  intros Hwf. unfold visitFuel, unvisited.
  assert (size (list_to_set (typeNames schema) : gset string)
          = length (typeMap schema)) as Hsize.
  { rewrite size_list_to_set by by apply wellFormed_NoDup.
    unfold typeNames. by rewrite length_fmap. }
  assert (size (list_to_set (typeNames schema) ∖ visitedTypes st)
          ≤ size (list_to_set (typeNames schema) : gset string)) as Hle.
  { apply subseteq_size. set_solver. }
  lia.
Qed.

(** The traversal of a well-formed graph returns. *)
Section Termination.
Variable graph : GraphQLSchema.
Hypothesis Hwf : wellFormed graph = true.

Lemma visitInputType_succeeds fuel st type :
  getType graph (name type) = Some type →
  size (unvisited graph st) < fuel →
  is_Some (visitInputType fuel graph st type).
Proof.
  revert st type.
  induction fuel as [|fuel IH]; intros st type Htype Hfuel; [lia|].
  simpl. case_decide as Hvisited; [done|].
  pose proof (proj1 (getType_Some _ _ _ Htype)) as Hin.
  pose proof (wellFormed_type graph type Hwf Hin) as Hwft.
  pose proof (unvisited_mark graph InputPosition type st Hin Hvisited) as Hless.
  unfold wellFormedType in Hwft.
  destruct (definition type) as [| | | | |fields]; try done.
  edestruct (forOf_succeeds
    (λ st field,
       namedType ← getType graph (getNamedType (input_field_type field));
       visitInputType fuel graph st namedType)
    (λ st1, visitedTypes (markVisited InputPosition (name type) st) ⊆ visitedTypes st1)
    fields (markVisited InputPosition (name type) st)) as (st' & -> & _);
    [done| |done].
  intros field st1 Hfield Hsub.
  eapply forallb_elem_of in Hwft; [|exact Hfield].
  apply resolvesTo_true in Hwft as (namedType & Hnamed & _).
  rewrite Hnamed. simpl.
  destruct (IH st1 namedType) as [st2 Hvisit]; [by eapply getType_name| |].
  { pose proof (unvisited_mono graph _ _ Hsub). lia. }
  exists st2. split; [done|].
  etrans; [exact Hsub|]. by eapply steps_visitedTypes, visitInputType_steps.
Qed.

Lemma visitArgs_succeeds fuel st args :
  wellFormedArgs graph args = true →
  size (unvisited graph st) < fuel →
  is_Some (visitArgs fuel graph st args).
Proof.
  intros Hargs Hfuel. unfold visitArgs.
  edestruct (forOf_succeeds
    (λ st arg,
       type ← getType graph (getNamedType (arg_type arg));
       visitInputType fuel graph st type)
    (λ st1, visitedTypes st ⊆ visitedTypes st1) args st) as (st' & -> & _);
    [done| |done].
  intros arg st1 Harg Hsub.
  eapply forallb_elem_of in Hargs; [|exact Harg].
  apply resolvesTo_true in Hargs as (type & Htype & _).
  rewrite Htype. simpl.
  destruct (visitInputType_succeeds fuel st1 type) as [st2 Hvisit];
    [by eapply getType_name| |].
  { pose proof (unvisited_mono graph _ _ Hsub). lia. }
  exists st2. split; [done|].
  etrans; [exact Hsub|]. by eapply steps_visitedTypes, visitInputType_steps.
Qed.

Lemma visitOutputType_succeeds fuel st type :
  let index := implementations (createPruningContext graph) in
  getType graph (name type) = Some type →
  size (unvisited graph st) < fuel →
  is_Some (visitOutputType fuel graph index st type).
Proof.
  intros index. revert st type.
  induction fuel as [|fuel IH]; intros st type Htype Hfuel; [lia|].
  assert (Hnames : ∀ typeNames st1,
    forallb (resolvesTo graph isOutputType) typeNames = true →
    size (unvisited graph st1) < fuel →
    ∃ st2,
      forOf (λ st typeName,
               type ← getType graph typeName;
               visitOutputType fuel graph index st type) st1 typeNames = Some st2
      ∧ visitedTypes st1 ⊆ visitedTypes st2).
  { intros typeNames st1 Hall Hfuel1.
    apply (forOf_succeeds _ (λ st2, visitedTypes st1 ⊆ visitedTypes st2)); [done|].
    intros typeName st2 Hin Hsub.
    eapply forallb_elem_of in Hall; [|exact Hin].
    apply resolvesTo_true in Hall as (type' & Htype' & _).
    rewrite Htype'. simpl.
    destruct (IH st2 type') as [st3 Hvisit]; [by eapply getType_name| |].
    { pose proof (unvisited_mono graph _ _ Hsub). lia. }
    exists st3. split; [done|].
    etrans; [exact Hsub|]. by eapply steps_visitedTypes, visitOutputType_steps. }
  assert (Hfields : ∀ fields st1,
    forallb (wellFormedField graph) fields = true →
    size (unvisited graph st1) < fuel →
    ∃ st2,
      forOf (λ st field,
               namedType ← getType graph (getNamedType (field_type field));
               st ← visitOutputType fuel graph index st namedType;
               visitArgs fuel graph st (field_args field)) st1 fields = Some st2
      ∧ visitedTypes st1 ⊆ visitedTypes st2).
  { intros fields st1 Hall Hfuel1.
    apply (forOf_succeeds _ (λ st2, visitedTypes st1 ⊆ visitedTypes st2)); [done|].
    intros field st2 Hfield Hsub.
    eapply forallb_elem_of in Hall; [|exact Hfield].
    apply andb_true_iff in Hall as [Hfield_type Hfield_args].
    apply resolvesTo_true in Hfield_type as (namedType & Hnamed & _).
    rewrite Hnamed. simpl.
    pose proof (unvisited_mono graph _ _ Hsub) as Hle.
    destruct (IH st2 namedType) as [st3 Hvisit]; [by eapply getType_name|lia|].
    rewrite Hvisit. simpl.
    pose proof (steps_visitedTypes _ _ (visitOutputType_steps _ _ _ _ _ _ Hvisit))
      as Hsub3.
    pose proof (unvisited_mono graph _ _ Hsub3) as Hle3.
    destruct (visitArgs_succeeds fuel st3 (field_args field))
      as [st4 Hargs]; [done|lia|].
    exists st4. split; [done|].
    etrans; [exact Hsub|]. etrans; [exact Hsub3|].
    by eapply steps_visitedTypes, visitArgs_steps. }
  simpl. case_decide as Hvisited; [done|].
  pose proof (proj1 (getType_Some _ _ _ Htype)) as Hin.
  pose proof (wellFormed_type graph type Hwf Hin) as Hwft.
  pose proof (unvisited_mark graph OutputPosition type st Hin Hvisited) as Hless.
  unfold wellFormedType in Hwft.
  destruct (definition type) as [|fields interfaces|fields interfaces|types| |];
    try done.
  - apply andb_true_iff in Hwft as [Hwf_fields Hwf_interfaces].
    destruct (Hfields fields (markVisited OutputPosition (name type) st))
      as (st1 & -> & Hsub1); [done|lia|].
    simpl. pose proof (unvisited_mono graph _ _ Hsub1).
    destruct (Hnames interfaces st1) as (st2 & -> & _); [done|lia|done].
  - apply andb_true_iff in Hwft as [Hwf_fields Hwf_interfaces].
    destruct (Hfields fields (markVisited OutputPosition (name type) st))
      as (st1 & -> & Hsub1); [done|lia|].
    simpl. pose proof (unvisited_mono graph _ _ Hsub1).
    assert (∃ st2,
      match getImplementations index (name type) with
      | Some implementers =>
        forOf (λ st typeName,
                 type ← getType graph typeName;
                 visitOutputType fuel graph index st type) st1 implementers
      | None => Some st1
      end = Some st2 ∧ visitedTypes st1 ⊆ visitedTypes st2) as (st2 & -> & Hsub2).
    { destruct (getImplementations index (name type)) as [implementers|] eqn:Hentry;
        [|by eexists].
      apply Hnames; [|lia].
      apply forallb_forall. intros implementer Himpl%list_elem_of_In.
      by eapply wellFormed_implementer. }
    simpl. pose proof (unvisited_mono graph _ _ Hsub2).
    destruct (Hnames interfaces st2) as (st3 & -> & _); [done|lia|done].
  - destruct (Hnames types (markVisited OutputPosition (name type) st))
      as (st1 & -> & _); [done|lia|done].
Qed.

(** The traversal of a well-formed graph returns, within the depth that
    [visitTypes] allows it. *)
Lemma markTypes_succeeds :
  is_Some (markTypes (createPruningContext graph)).
Proof.
  unfold markTypes, markTypesWithin.
  cbn [schema implementations unusedTypes createPruningContext].
  set (st0 := {| visitedTypes := ∅;
                 unused := foldl initUnused ∅ (typeNames graph);
                 journal := [] |}).
  edestruct (forOf_succeeds
    (λ st rootName,
       rootType ← getType graph rootName;
       visitOutputType (visitFuel graph) graph
         (foldl recordType ∅ (typeMap graph)) st rootType)
    (λ _, True) (getRootTypes graph) st0) as (st1 & -> & _); [done| |].
  { intros rootName st1 Hroot _.
    apply wellFormed_root in Hroot; [|done].
    apply resolvesTo_true in Hroot as (rootType & Htype & _).
    rewrite Htype. simpl.
    destruct (visitOutputType_succeeds (visitFuel graph) st1 rootType)
      as [st2 Hvisit]; [by eapply getType_name|by apply unvisited_bound|].
    by exists st2. }
  simpl.
  edestruct (forOf_succeeds
    (λ st directive, visitArgs (visitFuel graph) graph st (directive_args directive))
    (λ _, True) (directives graph) st1) as (st2 & -> & _); [done| |done].
  intros directive st2 Hdirective _.
  destruct (visitArgs_succeeds (visitFuel graph) st2
              (directive_args directive)) as [st3 Hargs];
    [by apply wellFormed_directive|by apply unvisited_bound|].
  by exists st3.
Qed.

End Termination.

(** * A larger bound changes no result *)

Lemma forOf_mono {A S : Type} (body body' : S → A → option S)
    (xs : list A) (st st' : S) :
  (∀ x st1 st2, body st1 x = Some st2 → body' st1 x = Some st2) →
  forOf body st xs = Some st' → forOf body' st xs = Some st'.
Proof.
  intros Hbody. revert st. induction xs as [|x xs IH]; intros st Hrun; [done|].
  simpl in *. destruct (body st x) as [st1|] eqn:Hx; [|done].
  rewrite (Hbody _ _ _ Hx). by apply IH.
Qed.

Lemma visitInputType_fuel_mono fuel fuel' schema st type st' :
  fuel ≤ fuel' →
  visitInputType fuel schema st type = Some st' →
  visitInputType fuel' schema st type = Some st'.
Proof.
  revert fuel' st type st'.
  induction fuel as [|fuel IH]; intros fuel' st type st' Hle Hrun; [done|].
  destruct fuel' as [|fuel']; [lia|]. simpl in *.
  case_decide; [done|]. destruct (definition type); try done.
  eapply forOf_mono; [|exact Hrun].
  intros field st1 st2 (namedType & Hnamed & Hvisit)%bind_Some.
  rewrite Hnamed. simpl. apply IH; [lia|done].
Qed.

Lemma visitArgs_fuel_mono fuel fuel' schema st args st' :
  fuel ≤ fuel' →
  visitArgs fuel schema st args = Some st' →
  visitArgs fuel' schema st args = Some st'.
Proof.
  intros Hle. apply forOf_mono.
  intros arg st1 st2 (type & Htype & Hvisit)%bind_Some.
  rewrite Htype. simpl. by eapply visitInputType_fuel_mono.
Qed.

Lemma visitOutputType_fuel_mono fuel fuel' schema implementations st type st' :
  fuel ≤ fuel' →
  visitOutputType fuel schema implementations st type = Some st' →
  visitOutputType fuel' schema implementations st type = Some st'.
Proof.
  revert fuel' st type st'.
  induction fuel as [|fuel IH]; intros fuel' st type st' Hle Hrun; [done|].
  destruct fuel' as [|fuel']; [lia|].
  assert (Hnames : ∀ typeNames st1 st2,
    forOf (λ st typeName,
             type ← getType schema typeName;
             visitOutputType fuel schema implementations st type) st1 typeNames
    = Some st2 →
    forOf (λ st typeName,
             type ← getType schema typeName;
             visitOutputType fuel' schema implementations st type) st1 typeNames
    = Some st2).
  { intros typeNames st1 st2. apply forOf_mono.
    intros typeName st3 st4 (type' & Htype & Hvisit)%bind_Some.
    rewrite Htype. simpl. apply IH; [lia|done]. }
  assert (Hfields : ∀ fields st1 st2,
    forOf (λ st field,
             namedType ← getType schema (getNamedType (field_type field));
             st ← visitOutputType fuel schema implementations st namedType;
             visitArgs fuel schema st (field_args field)) st1 fields = Some st2 →
    forOf (λ st field,
             namedType ← getType schema (getNamedType (field_type field));
             st ← visitOutputType fuel' schema implementations st namedType;
             visitArgs fuel' schema st (field_args field)) st1 fields = Some st2).
  { intros fields st1 st2. apply forOf_mono.
    intros field st3 st4
      (namedType & Hnamed & (st5 & Hvisit & Hargs)%bind_Some)%bind_Some.
    rewrite Hnamed. simpl. rewrite (IH fuel' _ _ _ ltac:(lia) Hvisit). simpl.
    eapply visitArgs_fuel_mono; [|exact Hargs]. lia. }
  simpl in *. case_decide; [done|].
  destruct (definition type) as [|fields interfaces|fields interfaces|types| |];
    try done.
  - apply bind_Some in Hrun as (st1 & Hloop & Hloop').
    rewrite (Hfields _ _ _ Hloop). simpl. by apply Hnames.
  - apply bind_Some in Hrun as (st1 & Hloop & (st2 & Hloop' & Hloop'')%bind_Some).
    rewrite (Hfields _ _ _ Hloop). simpl.
    destruct (getImplementations implementations (name type)) as [implementers|].
    + rewrite (Hnames _ _ _ Hloop'). simpl. by apply Hnames.
    + simplify_eq/=. by apply Hnames.
  - by apply Hnames.
Qed.

Lemma markTypesWithin_fuel_mono fuel fuel' pruningContext st :
  fuel ≤ fuel' →
  markTypesWithin fuel pruningContext = Some st →
  markTypesWithin fuel' pruningContext = Some st.
Proof.
  intros Hle. unfold markTypesWithin.
  intros (st1 & Hroots & Hdirectives)%bind_Some.
  erewrite forOf_mono; [| |exact Hroots].
  - simpl. eapply forOf_mono; [|exact Hdirectives].
    intros directive st2 st3. by apply visitArgs_fuel_mono.
  - intros rootName st2 st3 (rootType & Htype & Hvisit)%bind_Some.
    rewrite Htype. simpl. by eapply visitOutputType_fuel_mono.
Qed.

(** * The marking at the end of [visitTypes] *)

(** The marking that the first loop of [visitTypes] leaves. *)
Lemma initUnused_lookup typeNames (unusedTypes : gmap string bool) typeName :
  foldl initUnused unusedTypes typeNames !! typeName
  = if decide (typeName ∈ typeNames ∧ isReserved typeName = false) then Some true
    else unusedTypes !! typeName.
Proof.
  revert unusedTypes. induction typeNames as [|typeName' typeNames IH];
    intros unusedTypes; cbn [foldl].
  - case_decide as H; [|done]. destruct H as [H _]. by apply elem_of_nil in H.
  - rewrite IH. clear IH. unfold initUnused.
    destruct (isReserved typeName') eqn:Hreserved.
    + repeat case_decide; try done; exfalso; set_unfold; intuition (subst; congruence).
    + destruct (decide (typeName = typeName')) as [->|Hne].
      * rewrite lookup_insert_eq.
        repeat case_decide; try done; exfalso; set_unfold; intuition (subst; congruence).
      * rewrite lookup_insert_ne by done.
        repeat case_decide; try done; exfalso; set_unfold; intuition (subst; congruence).
Qed.

Lemma markTypes_steps graph st :
  markTypes (createPruningContext graph) = Some st →
  rtc step {| visitedTypes := ∅;
              unused := foldl initUnused ∅ (typeNames graph);
              journal := [] |} st.
Proof.
  unfold markTypes, markTypesWithin. cbn [schema implementations unusedTypes createPruningContext].
  intros (st1 & Hroots & Hdirectives)%bind_Some. etrans.
  - eapply (forOf_related (rtc step)); [exact Hroots|].
    intros rootName st2 st3 _ Hbody. cbv beta in Hbody.
    apply bind_Some in Hbody as (rootType & _ & Hvisit).
    by eapply visitOutputType_steps.
  - eapply (forOf_related (rtc step)); [exact Hdirectives|].
    intros directive st2 st3 _ Hargs. cbv beta in Hargs.
    by eapply visitArgs_steps.
Qed.

(** At the end of the traversal the flag of a name is [false] if the name
    was visited, [true] if it was not and is an unreserved key of the type
    map, and absent otherwise. *)
Lemma markTypes_unused graph st typeName :
  markTypes (createPruningContext graph) = Some st →
  unused st !! typeName
  = if decide (typeName ∈ visitedTypes st) then Some false
    else if decide (typeName ∈ typeNames graph ∧ isReserved typeName = false)
         then Some true else None.
Proof.
  intros Hsteps%markTypes_steps.
  rewrite (steps_unused _ _ typeName Hsteps). simpl.
  rewrite initUnused_lookup, lookup_empty.
  repeat case_decide; try done; exfalso; set_solver.
Qed.

Lemma markTypes_traverses graph st :
  let index := implementations (createPruningContext graph) in
  wellFormed graph = true →
  markTypes (createPruningContext graph) = Some st →
  (∀ typeName, typeName ∈ visitedTypes st →
     expanded graph index (visitedTypes st) typeName)
  ∧ (∀ rootName, rootName ∈ getRootTypes graph → rootName ∈ visitedTypes st)
  ∧ (∀ directive arg, directive ∈ directives graph →
       arg ∈ directive_args directive →
       getNamedType (arg_type arg) ∈ visitedTypes st).
Proof.
  intros index Hwf. unfold markTypes, markTypesWithin.
  cbn [schema implementations unusedTypes createPruningContext].
  intros (st1 & Hroots & Hdirectives)%bind_Some.
  apply (forOf_traverses graph index _ (λ rootName, [rootName])) in Hroots
    as [Htrav Hroots].
  2:{ intros rootName st2 st3 Hroot Hbody. cbv beta in Hbody.
      apply bind_Some in Hbody as (rootType & Htype & Hvisit).
      apply wellFormed_root in Hroot; [|done].
      apply resolvesTo_true in Hroot as (rootType' & Htype' & Hkind).
      assert (rootType' = rootType) as -> by congruence.
      destruct (visitOutputType_traverses graph Hwf (visitFuel graph) st2 rootType st3)
        as [Htrav Hin]; [by eapply getType_name|done..|].
      split; [done|]. intros reference ->%list_elem_of_singleton.
      by destruct (getType_Some _ _ _ Htype) as [_ <-]. }
  apply (forOf_traverses graph index _
           (λ directive, (λ arg, getNamedType (arg_type arg))
                           <$> directive_args directive)) in Hdirectives
    as [Htrav' Hdirectives].
  2:{ intros directive st2 st3 Hdirective Hargs.
      destruct (visitArgs_traverses graph Hwf (visitFuel graph) index st2
                  (directive_args directive) st3
                  (wellFormed_directive _ _ Hwf Hdirective) Hargs) as [Htrav' Hin].
      split; [done|].
      intros reference (arg & -> & Harg)%list_elem_of_fmap. by apply Hin. }
  split; [|split].
  - intros typeName Hin.
    assert (traverses graph index
              {| visitedTypes := ∅;
                 unused := foldl initUnused ∅ (typeNames graph);
                 journal := [] |} st) as [_ Hexp] by (by etrans).
    apply Hexp; [done|]. simpl. set_solver.
  - intros rootName Hroot. eapply traverses_visitedTypes; [exact Htrav'|].
    eapply Hroots; [done|]. by left.
  - intros directive arg Hdirective Harg. eapply Hdirectives; [done|].
    apply list_elem_of_fmap. by exists arg.
Qed.

(** Reachability soundness of the marker: what the rules of the traversal
    reach is visited, and so flagged as used. *)
Lemma markTypes_reaches graph st position typeName :
  wellFormed graph = true →
  markTypes (createPruningContext graph) = Some st →
  reaches graph (implementations (createPruningContext graph)) position typeName →
  typeName ∈ visitedTypes st.
Proof.
  intros Hwf Hmark Hreach.
  destruct (markTypes_traverses graph st Hwf Hmark) as (Hexp & Hroots & Hdirectives).
  induction Hreach as
    [rootName Hroot
    |directive arg Hdirective Harg
    |typeName type fields field _ IH Htype Hfields Hfield
    |typeName type fields field arg _ IH Htype Hfields Hfield Harg
    |typeName type implementers implementer _ IH Htype Hkind Hentry Himpl
    |typeName type interfaces iface _ IH Htype Hinterfaces Hiface
    |typeName type types member _ IH Htype Hdef Hmember
    |typeName type fields field _ IH Htype Hdef Hfield];
    [by apply Hroots|by eapply Hdirectives|..];
    apply (Hexp _ IH type Htype); unfold references.
  - unfold getFields in Hfields.
    destruct (definition type); simplify_eq;
      apply elem_of_app; left; apply list_elem_of_bind; exists field;
      (split; [by left|done]).
  - unfold getFields in Hfields.
    destruct (definition type); simplify_eq;
      apply elem_of_app; left; apply list_elem_of_bind; exists field;
      (split; [|done]); right; apply list_elem_of_fmap; by exists arg.
  - unfold isInterfaceType in Hkind.
    destruct (definition type); simplify_eq.
    destruct (getType_Some _ _ _ Htype) as [_ <-].
    rewrite Hentry. set_solver.
  - unfold getInterfaces in Hinterfaces.
    destruct (definition type); simplify_eq; set_solver.
  - by rewrite Hdef.
  - rewrite Hdef. apply list_elem_of_fmap. by exists field.
Qed.

(** * The selection *)

Lemma visitTypes_Some pruningContext pruningContext' :
  visitTypes pruningContext = Some pruningContext' →
  ∃ st, markTypes pruningContext = Some st
        ∧ schema pruningContext' = schema pruningContext
        ∧ implementations pruningContext' = implementations pruningContext
        ∧ unusedTypes pruningContext' = unused st.
Proof.
  unfold visitTypes. intros (st & Hmark & [= <-])%bind_Some. by exists st.
Qed.

Lemma elem_of_selectTypesToPrune options pruningContext types typeName :
  typeName ∈ selectTypesToPrune options pruningContext types
  ↔ ∃ type, type ∈ types ∧ name type = typeName
            ∧ prunesType options pruningContext type = true.
Proof.
  unfold selectTypesToPrune.
  apply (foldl_invariant _
    (λ done (typesToPrune : gset string),
       typeName ∈ typesToPrune
       ↔ ∃ type, type ∈ done ∧ name type = typeName
                 ∧ prunesType options pruningContext type = true)).
  - split; [set_solver|]. intros (type & Hin & _). by apply elem_of_nil in Hin.
  - intros done type typesToPrune IH.
    destruct (prunesType options pruningContext type) eqn:Hprunes.
    + rewrite elem_of_union, elem_of_singleton, IH. split.
      * intros [->|(type' & Hin & Hname & Hprunes')].
        -- exists type. rewrite elem_of_app, list_elem_of_singleton.
           split; [by right|done].
        -- exists type'. rewrite elem_of_app. split; [by left|done].
      * intros (type' & [Hin|Hin%list_elem_of_singleton]%elem_of_app & Hname & Hp);
          [right; by exists type'|left; by subst].
    + rewrite IH. split.
      * intros (type' & Hin & Hname & Hprunes'). exists type'.
        rewrite elem_of_app. split; [by left|done].
      * intros (type' & [Hin|Hin%list_elem_of_singleton]%elem_of_app & Hname & Hp);
          [by exists type'|congruence].
Qed.

Lemma typesToPruneOf_Some graph options typesToPrune :
  typesToPruneOf graph options = Some typesToPrune →
  ∃ st, markTypes (createPruningContext graph) = Some st
        ∧ typesToPrune
          = selectTypesToPrune options
              {| schema := graph;
                 unusedTypes := unused st;
                 implementations := implementations (createPruningContext graph) |}
              (typeMap graph).
Proof.
  unfold typesToPruneOf, visitTypes.
  intros (pruningContext & (st & Hmark & [= <-])%bind_Some & [= <-])%bind_Some.
  by exists st.
Qed.

Lemma typesToPruneOf_succeeds graph options :
  wellFormed graph = true → is_Some (typesToPruneOf graph options).
Proof.
  intros Hwf. destruct (markTypes_succeeds graph Hwf) as [st Hmark].
  unfold typesToPruneOf, visitTypes. rewrite Hmark. by eexists.
Qed.

(** * Rebuilding the schema *)

Lemma filter_all {A : Type} (P : A → Prop) `{!∀ x, Decision (P x)} (xs : list A) :
  (∀ x, x ∈ xs → P x) → filter P xs = xs.
Proof.
  induction xs as [|x xs IH]; intros Hall; [done|].
  rewrite filter_cons_True by (apply Hall; left).
  f_equal. apply IH. intros y Hy. apply Hall. by right.
Qed.

Lemma filter_none {A : Type} (P : A → Prop) `{!∀ x, Decision (P x)} (xs : list A) :
  (∀ x, x ∈ xs → ¬ P x) → filter P xs = [].
Proof.
  induction xs as [|x xs IH]; intros Hall; [done|].
  rewrite filter_cons_False by (apply Hall; left).
  apply IH. intros y Hy. apply Hall. by right.
Qed.

Lemma pruneMapper_null typesToPrune type :
  pruneMapper typesToPrune type = MapperNull ↔ name type ∈ typesToPrune.
Proof. unfold pruneMapper. case_decide; naive_solver. Qed.

Lemma elem_of_removedNames graph typesToPrune typeName :
  typeName ∈ removedNames graph (pruneMapper typesToPrune)
  ↔ typeName ∈ typesToPrune ∧ typeName ∈ typeNames graph.
Proof.
  unfold removedNames, typeNames.
  rewrite elem_of_list_to_set, !list_elem_of_fmap. split.
  - intros (type & -> & [Hnull Hin]%list_elem_of_filter).
    apply pruneMapper_null in Hnull. split; [done|]. by exists type.
  - intros [Hprune (type & -> & Hin)]. exists type. split; [done|].
    apply list_elem_of_filter. split; [|done]. by apply pruneMapper_null.
Qed.

Lemma typeMap_mapSchema graph typeMapper :
  typeMap (mapSchema graph typeMapper)
  = rewireNamedType (removedNames graph typeMapper) <$>
      filter (λ type, typeMapper type ≠ MapperNull) (typeMap graph).
Proof. done. Qed.

Lemma typeNames_mapSchema graph typeMapper :
  typeNames (mapSchema graph typeMapper)
  = name <$> filter (λ type, typeMapper type ≠ MapperNull) (typeMap graph).
Proof.
  unfold typeNames. rewrite typeMap_mapSchema, <-list_fmap_compose.
  by apply list_fmap_ext.
Qed.

Lemma typeNames_mapSchema_sublist graph typeMapper :
  typeNames (mapSchema graph typeMapper) `sublist_of` typeNames graph.
Proof.
  rewrite typeNames_mapSchema. apply fmap_sublist, sublist_filter.
Qed.

(** A type of the rebuilt schema is a type of the input that the mapper
    kept, rewired. *)
Lemma elem_of_typeMap_mapSchema graph typesToPrune type' :
  type' ∈ typeMap (mapSchema graph (pruneMapper typesToPrune))
  ↔ ∃ type, type' = rewireNamedType (removedNames graph (pruneMapper typesToPrune)) type
            ∧ type ∈ typeMap graph ∧ name type ∉ typesToPrune.
Proof.
  rewrite typeMap_mapSchema, list_elem_of_fmap.
  setoid_rewrite list_elem_of_filter. setoid_rewrite pruneMapper_null.
  naive_solver.
Qed.

Lemma getType_mapSchema graph typesToPrune typeName :
  typeName ∉ typesToPrune →
  getType (mapSchema graph (pruneMapper typesToPrune)) typeName
  = rewireNamedType (removedNames graph (pruneMapper typesToPrune))
      <$> getType graph typeName.
Proof.
  intros Hkept. unfold getType. rewrite typeMap_mapSchema.
  generalize (removedNames graph (pruneMapper typesToPrune)). intros removed.
  induction (typeMap graph) as [|type types IH]; [done|].
  cbn [find]. destruct (String.eqb_spec (name type) typeName) as [Heq|Hne].
  - rewrite filter_cons_True by (rewrite pruneMapper_null; congruence).
    rewrite fmap_cons. cbn [find rewireNamedType name].
    by rewrite (proj2 (String.eqb_eq _ _) Heq).
  - destruct (decide (pruneMapper typesToPrune type ≠ MapperNull)) as [Hkeep|Hdrop].
    + rewrite filter_cons_True by done. rewrite fmap_cons.
      cbn [find rewireNamedType name].
      by rewrite (proj2 (String.eqb_neq _ _) Hne).
    + by rewrite filter_cons_False by done.
Qed.

Lemma length_typeMap_mapSchema graph typesToPrune type :
  type ∈ typeMap graph → name type ∈ typesToPrune →
  length (typeMap (mapSchema graph (pruneMapper typesToPrune)))
  < length (typeMap graph).
Proof.
  intros Hin Hprune. rewrite typeMap_mapSchema, length_fmap.
  eapply length_filter_lt; [exact Hin|].
  intros Hkeep. apply Hkeep. by apply pruneMapper_null.
Qed.

(** Rebuilding with nothing to remove gives the schema back. *)
Lemma rewireArgs_empty args : rewireArgs ∅ args = args.
Proof. unfold rewireArgs. apply filter_all. set_solver. Qed.

Lemma rewireFields_empty fields : rewireFields ∅ fields = fields.
Proof.
  unfold rewireFields. rewrite filter_all by set_solver.
  induction fields as [|[fieldName fieldType args] fields IH]; [done|].
  rewrite fmap_cons, IH. unfold rewireField. simpl. by rewrite rewireArgs_empty.
Qed.

Lemma rewireNamedType_empty type : rewireNamedType ∅ type = type.
Proof.
  destruct type as [typeName [|fields interfaces|fields interfaces|types| |fields]];
    unfold rewireNamedType, rewireDefinition, rewireNamedTypes, rewireInputFields;
    simpl; rewrite ?rewireFields_empty, ?filter_all by set_solver; done.
Qed.

Lemma rewireRoot_empty root : rewireRoot ∅ root = root.
Proof. destruct root as [rootName|]; [|done]. simpl. case_decide; set_solver. Qed.

Lemma mapSchema_nothing graph : mapSchema graph (pruneMapper ∅) = graph.
Proof.
  unfold mapSchema.
  assert (removedNames graph (pruneMapper ∅) = ∅) as ->.
  { unfold removedNames. rewrite filter_none; [done|].
    intros type _. rewrite pruneMapper_null. set_solver. }
  rewrite filter_all by (intros type _; rewrite pruneMapper_null; set_solver).
  rewrite !rewireRoot_empty. destruct graph as [types directives ? ? ?]. simpl.
  f_equal.
  - induction types as [|type types IH]; [done|].
    by rewrite fmap_cons, IH, rewireNamedType_empty.
  - induction directives as [|[directiveName args] directives IH]; [done|].
    rewrite fmap_cons, IH. unfold rewireDirective. simpl.
    by rewrite rewireArgs_empty.
Qed.

(** * Rebuilding keeps a schema well formed *)

Lemma isOutputType_rewire removed type :
  isOutputType (rewireNamedType removed type) = isOutputType type.
Proof. unfold isOutputType. simpl. by destruct (definition type). Qed.

Lemma isInputType_rewire removed type :
  isInputType (rewireNamedType removed type) = isInputType type.
Proof. unfold isInputType. simpl. by destruct (definition type). Qed.

(** A reference that resolves in the input and was not removed resolves in
    the rebuilt schema, to a type of the same kind. *)
Lemma resolvesTo_mapSchema graph typesToPrune kind typeName :
  (∀ removed type, kind (rewireNamedType removed type) = kind type) →
  typeName ∉ removedNames graph (pruneMapper typesToPrune) →
  resolvesTo graph kind typeName = true →
  resolvesTo (mapSchema graph (pruneMapper typesToPrune)) kind typeName = true.
Proof.
  intros Hkind Hkept (type & Htype & Hkind_type)%resolvesTo_true.
  apply resolvesTo_true.
  exists (rewireNamedType (removedNames graph (pruneMapper typesToPrune)) type).
  split; [|by rewrite Hkind].
  rewrite getType_mapSchema; [by rewrite Htype|].
  intros Hprune. apply Hkept, elem_of_removedNames. split; [done|].
  destruct (getType_Some _ _ _ Htype) as [Hin <-]. unfold typeNames.
  apply list_elem_of_fmap. by exists type.
Qed.

Lemma forallb_filter_resolves graph typesToPrune kind {A : Type}
    (target : A → string) (xs : list A) :
  (∀ removed type, kind (rewireNamedType removed type) = kind type) →
  forallb (λ x, resolvesTo graph kind (target x)) xs = true →
  forallb (λ x, resolvesTo (mapSchema graph (pruneMapper typesToPrune)) kind (target x))
    (filter (λ x, target x ∉ removedNames graph (pruneMapper typesToPrune)) xs)
  = true.
Proof.
  intros Hkind Hall. apply forallb_forall.
  intros x [Hkept Hin]%list_elem_of_In%list_elem_of_filter.
  apply resolvesTo_mapSchema; [done..|].
  by apply (forallb_elem_of (λ x, resolvesTo graph kind (target x)) xs).
Qed.

Lemma wellFormedArgs_mapSchema graph typesToPrune args :
  wellFormedArgs graph args = true →
  wellFormedArgs (mapSchema graph (pruneMapper typesToPrune))
    (rewireArgs (removedNames graph (pruneMapper typesToPrune)) args) = true.
Proof.
  unfold wellFormedArgs, rewireArgs.
  apply (forallb_filter_resolves graph typesToPrune isInputType
           (λ arg, getNamedType (arg_type arg))).
  apply isInputType_rewire.
Qed.

Lemma wellFormedFields_mapSchema graph typesToPrune fields :
  forallb (wellFormedField graph) fields = true →
  forallb (wellFormedField (mapSchema graph (pruneMapper typesToPrune)))
    (rewireFields (removedNames graph (pruneMapper typesToPrune)) fields) = true.
Proof.
  intros Hall. apply forallb_forall. unfold rewireFields.
  intros field' (field & -> & [Hkept Hin]%list_elem_of_filter)
    %list_elem_of_In%list_elem_of_fmap.
  eapply forallb_elem_of in Hall; [|exact Hin].
  apply andb_true_iff in Hall as [Htype Hargs].
  unfold wellFormedField. cbn [rewireField field_type field_args].
  apply andb_true_iff. split.
  - apply resolvesTo_mapSchema; [apply isOutputType_rewire|done..].
  - by apply wellFormedArgs_mapSchema.
Qed.

Lemma wellFormedType_mapSchema graph typesToPrune type :
  wellFormedType graph type = true →
  wellFormedType (mapSchema graph (pruneMapper typesToPrune))
    (rewireNamedType (removedNames graph (pruneMapper typesToPrune)) type) = true.
Proof.
  unfold wellFormedType. cbn [rewireNamedType definition].
  destruct (definition type) as [|fields interfaces|fields interfaces|types| |fields];
    cbn [rewireDefinition]; try done.
  - intros [Hfields Hinterfaces]%andb_true_iff. apply andb_true_iff. split.
    + by apply wellFormedFields_mapSchema.
    + apply (forallb_filter_resolves graph typesToPrune isOutputType id);
        [apply isOutputType_rewire|done].
  - intros [Hfields Hinterfaces]%andb_true_iff. apply andb_true_iff. split.
    + by apply wellFormedFields_mapSchema.
    + apply (forallb_filter_resolves graph typesToPrune isOutputType id);
        [apply isOutputType_rewire|done].
  - apply (forallb_filter_resolves graph typesToPrune isOutputType id).
    apply isOutputType_rewire.
  - apply (forallb_filter_resolves graph typesToPrune isInputType
             (λ field, getNamedType (input_field_type field))).
    apply isInputType_rewire.
Qed.

Lemma getRootTypes_mapSchema graph typeMapper rootName :
  rootName ∈ getRootTypes (mapSchema graph typeMapper) →
  rootName ∈ getRootTypes graph ∧ rootName ∉ removedNames graph typeMapper.
Proof.
  unfold getRootTypes, mapSchema. cbn [queryType mutationType subscriptionType].
  generalize (removedNames graph typeMapper). intros removed.
  rewrite !elem_of_app.
  destruct (queryType graph) as [query|], (mutationType graph) as [mutation|],
    (subscriptionType graph) as [subscription|]; simpl;
    repeat case_decide; simpl; set_solver.
Qed.

Lemma wellFormed_mapSchema graph typesToPrune :
  wellFormed graph = true →
  wellFormed (mapSchema graph (pruneMapper typesToPrune)) = true.
Proof.
  intros Hwf. unfold wellFormed. rewrite !andb_true_iff. repeat split.
  - apply bool_decide_eq_true.
    apply (sublist_NoDup _ (typeNames graph)).
    + by apply wellFormed_NoDup.
    + apply typeNames_mapSchema_sublist.
  - apply forallb_forall.
    intros type' (type & -> & Hin & Hkept)
      %list_elem_of_In%elem_of_typeMap_mapSchema.
    apply wellFormedType_mapSchema. by apply wellFormed_type.
  - apply forallb_forall. cbn [mapSchema directives].
    intros directive' (directive & -> & Hin)%list_elem_of_In%list_elem_of_fmap.
    cbn [rewireDirective directive_args].
    apply wellFormedArgs_mapSchema. by apply wellFormed_directive.
  - apply forallb_forall.
    intros rootName [Hroot Hkept]%list_elem_of_In%getRootTypes_mapSchema.
    apply resolvesTo_mapSchema; [apply isOutputType_rewire|done|].
    by apply wellFormed_root.
Qed.

(** * The passes of [pruneSchema] *)

Lemma typesToPruneOf_typeNames graph options typesToPrune typeName :
  typesToPruneOf graph options = Some typesToPrune →
  typeName ∈ typesToPrune →
  ∃ type, type ∈ typeMap graph ∧ name type = typeName.
Proof.
  intros (st & _ & ->)%typesToPruneOf_Some
    (type & Hin & Hname & _)%elem_of_selectTypesToPrune.
  by exists type.
Qed.

Lemma size_zero_empty (typesToPrune : gset string) :
  size typesToPrune = 0 → typesToPrune = ∅.
Proof. intros Hsize. by apply leibniz_equiv, size_empty_iff. Qed.

(** A pass that selects a type leaves fewer types. *)
Lemma mapSchema_fewer_types graph options typesToPrune :
  typesToPruneOf graph options = Some typesToPrune →
  size typesToPrune ≠ 0 →
  length (typeMap (mapSchema graph (pruneMapper typesToPrune)))
  < length (typeMap graph).
Proof.
  intros Hprune Hsize.
  destruct (size_pos_elem_of typesToPrune) as [typeName Hin]; [lia|].
  destruct (typesToPruneOf_typeNames _ _ _ _ Hprune Hin) as (type & Htype & <-).
  by eapply length_typeMap_mapSchema.
Qed.

Lemma first_pass graph options typesToPrune :
  typesToPruneOf graph options = Some typesToPrune →
  {| pass_schema := graph; pass_typesToPrune := typesToPrune |}
    ∈ passes graph options.
Proof.
  intros Hprune. unfold passes, pruneFuel. cbn [passesWithin].
  rewrite Hprune. left.
Qed.

(** What is true of the input and kept by a rebuild is true of the schema
    of every pass; the removal set of a pass is the selection made on its
    schema. *)
Lemma passesWithin_invariant (P : GraphQLSchema → Prop) fuel graph options pass :
  (∀ graph' typesToPrune, P graph' →
     P (mapSchema graph' (pruneMapper typesToPrune))) →
  P graph →
  pass ∈ passesWithin fuel graph options →
  P (pass_schema pass)
  ∧ typesToPruneOf (pass_schema pass) options = Some (pass_typesToPrune pass).
Proof.
  intros Hkept. revert graph.
  induction fuel as [|fuel IH]; intros graph HP Hpass; cbn [passesWithin] in Hpass.
  - by apply elem_of_nil in Hpass.
  - destruct (typesToPruneOf graph options) as [typesToPrune|] eqn:Hprune;
      [|by apply elem_of_nil in Hpass].
    apply elem_of_cons in Hpass as [->|Hpass]; [done|].
    case_decide; [by apply elem_of_nil in Hpass|].
    eapply IH; [|exact Hpass]. by apply Hkept.
Qed.

Lemma passes_wellFormed graph options pass :
  wellFormed graph = true →
  pass ∈ passes graph options →
  wellFormed (pass_schema pass) = true
  ∧ typesToPruneOf (pass_schema pass) options = Some (pass_typesToPrune pass).
Proof.
  intros Hwf Hpass.
  apply (passesWithin_invariant (λ graph', wellFormed graph' = true)
           (pruneFuel graph) graph options pass); [|done..].
  intros graph' typesToPrune. apply wellFormed_mapSchema.
Qed.

Lemma passes_typesToPruneOf graph options pass :
  pass ∈ passes graph options →
  typesToPruneOf (pass_schema pass) options = Some (pass_typesToPrune pass).
Proof.
  intros Hpass.
  by apply (passesWithin_invariant (λ _, True)
              (pruneFuel graph) graph options pass).
Qed.

Lemma passes_NoDup graph options pass :
  NoDup (typeNames graph) →
  pass ∈ passes graph options →
  NoDup (typeNames (pass_schema pass)).
Proof.
  intros Hnodup Hpass.
  apply (passesWithin_invariant (λ graph', NoDup (typeNames graph'))
           (pruneFuel graph) graph options pass); [|done..].
  intros graph' typesToPrune Hnodup'.
  apply (sublist_NoDup _ (typeNames graph')); [done|].
  apply typeNames_mapSchema_sublist.
Qed.

Lemma passes_sublist graph options pass :
  pass ∈ passes graph options →
  typeNames (pass_schema pass) `sublist_of` typeNames graph.
Proof.
  intros Hpass.
  apply (passesWithin_invariant
           (λ graph', typeNames graph' `sublist_of` typeNames graph)
           (pruneFuel graph) graph options pass); [|done..].
  intros graph' typesToPrune Hsub.
  etrans; [apply typeNames_mapSchema_sublist|done].
Qed.

(** * [pruneSchema] returns *)

Lemma pruneSchemaWithin_succeeds fuel graph options :
  wellFormed graph = true →
  length (typeMap graph) < fuel →
  is_Some (pruneSchemaWithin fuel graph options).
Proof.
  revert graph. induction fuel as [|fuel IH]; intros graph Hwf Hfuel; [lia|].
  cbn [pruneSchemaWithin].
  destruct (typesToPruneOf_succeeds graph options Hwf) as [typesToPrune Hprune].
  rewrite Hprune. simpl. case_decide as Hsize; [done|].
  apply IH; [by apply wellFormed_mapSchema|].
  pose proof (mapSchema_fewer_types _ _ _ Hprune Hsize). lia.
Qed.

(** * What [pruneSchema] returns *)

(** The result is the schema of the last pass, which selected nothing. *)
Lemma pruneSchemaWithin_fixed fuel graph options pruned :
  pruneSchemaWithin fuel graph options = Some pruned →
  typesToPruneOf pruned options = Some ∅.
Proof.
  revert graph. induction fuel as [|fuel IH]; intros graph Hrun; [done|].
  cbn [pruneSchemaWithin] in Hrun.
  apply bind_Some in Hrun as (typesToPrune & Hprune & Hrun).
  case_decide as Hsize; [|by eapply IH].
  apply size_zero_empty in Hsize as ->.
  rewrite mapSchema_nothing in Hrun. by simplify_eq.
Qed.

Lemma pruneSchemaWithin_sublist fuel graph options pruned :
  pruneSchemaWithin fuel graph options = Some pruned →
  typeNames pruned `sublist_of` typeNames graph.
Proof.
  revert graph. induction fuel as [|fuel IH]; intros graph Hrun; [done|].
  cbn [pruneSchemaWithin] in Hrun.
  apply bind_Some in Hrun as (typesToPrune & Hprune & Hrun).
  case_decide as Hsize.
  - simplify_eq. apply typeNames_mapSchema_sublist.
  - etrans; [by eapply IH|]. apply typeNames_mapSchema_sublist.
Qed.

(** Pruning a schema on which a pass selects nothing returns it. *)
Lemma pruneSchema_fixed graph options :
  typesToPruneOf graph options = Some ∅ →
  pruneSchema graph options = Some graph
  ∧ passes graph options = [{| pass_schema := graph; pass_typesToPrune := ∅ |}].
Proof.
  intros Hprune. unfold pruneSchema, passes, pruneFuel.
  cbn [pruneSchemaWithin passesWithin]. rewrite Hprune. simpl.
  by rewrite mapSchema_nothing.
Qed.

(** * The selection, rule by rule *)

(** The entry of an interface in the index is never there and empty, so
    the condition of line 80 is false of every type. *)
Lemma isUnimplemented_false graph type :
  isUnimplemented (implementations (createPruningContext graph)) type = false.
Proof.
  unfold isUnimplemented.
  pose proof (createPruningContext_indexes graph (name type)) as Hindex.
  destruct (getImplementations _ (name type)) as [[|implementer implementers]|];
    [by destruct Hindex|by rewrite andb_false_r..].
Qed.

(** The conditions of lines 62 to 88 are the four rules, each under its
    flag. *)
Lemma prunesType_rules options pruningContext type :
  prunesType options pruningContext type
  = existsb (λ rule, prunedBy rule options pruningContext type) rules.
Proof.
  unfold prunesType, prunedBy, eligible, pruneCondition, rules, existsb,
    ruleApplies, skipFlag, isEmptyComposite, isEmptyUnion, isUnimplemented,
    isInterfaceType.
  destruct (isReserved (name type)); [done|].
  destruct (from_option _ false (skipPruning options)); [done|].
  cbn [negb andb].
  destruct (definition type) as [|fields ?|fields ?|types| |fields];
    try destruct (getImplementations _ _) as [implementers|];
    repeat match goal with |- context [isEmpty ?xs] => destruct (isEmpty xs) end;
    destruct (isUnused pruningContext (name type)),
      (skipEmptyCompositeTypePruning options), (skipEmptyUnionPruning options),
      (skipUnimplementedInterfacesPruning options), (skipUnusedTypesPruning options);
    done.
Qed.

Lemma skipFlag_setSkipFlag rule rule' flag options :
  skipFlag rule (setSkipFlag rule' flag options)
  = if decide (rule' = rule) then flag else skipFlag rule options.
Proof. by destruct rule, rule'. Qed.

Lemma prunedBy_setSkipFlag rule rule' flag options pruningContext type :
  rule ≠ rule' →
  prunedBy rule (setSkipFlag rule' flag options) pruningContext type
  = prunedBy rule options pruningContext type.
Proof.
  intros Hne. unfold prunedBy. rewrite skipFlag_setSkipFlag.
  case_decide; [congruence|done].
Qed.

Lemma elem_of_removedBy rule graph options removed typeName :
  removedBy rule graph options = Some removed →
  typeName ∈ removed
  ↔ ∃ pruningContext type,
      visitTypes (createPruningContext graph) = Some pruningContext
      ∧ type ∈ typeMap graph ∧ name type = typeName
      ∧ prunedBy rule options pruningContext type = true.
Proof.
  unfold removedBy. intros (pruningContext & Hvisit & [= <-])%bind_Some.
  rewrite elem_of_list_to_set, list_elem_of_fmap.
  setoid_rewrite list_elem_of_filter. split.
  - intros (type & -> & Hpruned & Hin). by exists pruningContext, type.
  - intros (pruningContext' & type & ? & Hin & <- & Hpruned). simplify_eq.
    by exists type.
Qed.

Lemma pruneSchemaWithin_fuel_mono fuel fuel' graph options pruned :
  fuel ≤ fuel' →
  pruneSchemaWithin fuel graph options = Some pruned →
  pruneSchemaWithin fuel' graph options = Some pruned.
Proof.
  revert fuel' graph.
  induction fuel as [|fuel IH]; intros fuel' graph Hle Hrun; [done|].
  destruct fuel' as [|fuel']; [lia|]. cbn [pruneSchemaWithin] in *.
  apply bind_Some in Hrun as (typesToPrune & -> & Hrun). simpl.
  case_decide; [done|]. apply IH; [lia|done].
Qed.

(** * Runs on the schemas above *)

(** An object type that nothing refers to goes; a reserved name stays. *)
Example pruneSchema_searchSchema :
  typeNames <$> pruneSchema searchSchema defaultOptions
  = Some ["Query"; "String"; "__Internal"].
Proof. vm_compute. reflexivity. Qed.

(** Two object types that refer to each other and that no root leads to
    go in one pass; the traversal comes back from the cycles of the rest. *)
Example passes_cyclicSchema :
  elements ∘ pass_typesToPrune <$> passes cyclicSchema defaultOptions
  = [["Orphan"; "Twin"]; []].
Proof. vm_compute. reflexivity. Qed.

(** A type left without fields by the removals of a pass goes in the next
    pass. *)
Example passes_cascadeSchema :
  elements ∘ pass_typesToPrune <$> passes cascadeSchema defaultOptions
  = [["Choice"]; ["Holder"]; ["Query"]; []].
Proof. vm_compute. reflexivity. Qed.

(** A type that [skipPruning] exempts stays, unused as it is. *)
Example pruneSchema_keepNamed :
  pruneSchema searchSchema (keepNamed "Stray") = Some searchSchema.
Proof. vm_compute. reflexivity. Qed.

(** The order of the calls of the traversal: a field's type, then its
    arguments' types; after the fields, the implementers of an interface,
    then the interfaces of the type. *)
Example journal_cyclicSchema :
  (λ st, visit_name <$> reverse (journal st))
    <$> markTypes (createPruningContext cyclicSchema)
  = Some ["Query"; "Author"; "ID"; "Post"; "ID"; "Author"; "Node"; "ID";
          "Author"; "Post"; "Node"; "Node"; "Filter"; "Filter"; "ID"].
Proof. vm_compute. reflexivity. Qed.

(** * Reachable types and the removal set *)

Lemma existsb_rules (f : Rule → bool) :
  existsb f rules = true → ∃ rule, f rule = true.
Proof. intros (rule & _ & Hrule)%existsb_exists. by exists rule. Qed.

Lemma prunedBy_true rule options pruningContext type :
  prunedBy rule options pruningContext type = true →
  eligible options type = true
  ∧ ruleApplies rule pruningContext type = true
  ∧ skipFlag rule options = false.
Proof.
  unfold prunedBy. rewrite !andb_true_iff, negb_true_iff. naive_solver.
Qed.

(** C1, as stated, fails: in [type Query { item: Empty }  type Empty] the
    type [Empty] is reached from the root through the field [item], and
    the first pass of [pruneSchema] with the default options puts it in its
    removal set, because it has no fields. *)
Lemma reachable_type_in_removal_set :
  ∃ pass, pass ∈ passes emptyObjectSchema defaultOptions
          ∧ reachable (pass_schema pass) "Empty"
          ∧ "Empty" ∈ pass_typesToPrune pass.
Proof.
  exists {| pass_schema := emptyObjectSchema; pass_typesToPrune := {["Empty"]} |}.
  split; [|split].
  - apply first_pass. vm_compute. reflexivity.
  - exists OutputPosition.
    apply (reaches_field _ _ "Query"
             (namedType "Query" (GraphQLObjectType [field "item" "Empty"] []))
             [field "item" "Empty"] (field "item" "Empty")); [|done|done|left].
    apply reaches_root. left.
  - compute_done.
Qed.

(** C1, amended: in every pass of [pruneSchema] on a well-formed graph, a
    type that the traversal rules reach from the roots or from the
    directives' argument types is flagged as used, and it is in the removal
    set of the pass only as an object, interface or input object type
    without fields while [skipEmptyCompositeTypePruning] is off, or as a
    union without member types while [skipEmptyUnionPruning] is off. *)
Theorem reachable_pruned_only_when_empty graph options pass typeName :
  wellFormed graph = true →
  pass ∈ passes graph options →
  reachable (pass_schema pass) typeName →
  (∀ pruningContext,
     visitTypes (createPruningContext (pass_schema pass)) = Some pruningContext →
     isUnused pruningContext typeName = false)
  ∧ (typeName ∈ pass_typesToPrune pass →
     ∃ type, getType (pass_schema pass) typeName = Some type
       ∧ (isEmptyComposite type = true
          ∧ skipEmptyCompositeTypePruning options = false
          ∨ isEmptyUnion type = true
            ∧ skipEmptyUnionPruning options = false)).
Proof.
  intros Hwf Hpass [position Hreach].
  destruct (passes_wellFormed _ _ _ Hwf Hpass) as [Hwf' Hprune].
  destruct (typesToPruneOf_Some _ _ _ Hprune) as (st & Hmark & Hselect).
  pose proof (markTypes_reaches _ st position typeName Hwf' Hmark Hreach) as Hvisited.
  pose proof (markTypes_unused _ st typeName Hmark) as Hflag.
  rewrite decide_True in Hflag by done.
  split.
  - intros pruningContext (st' & Hmark' & _ & _ & Hunused)%visitTypes_Some.
    unfold isUnused. rewrite Hunused. simplify_eq. by rewrite Hflag.
  - rewrite Hselect.
    intros (type & Hin & <- & Hprunes)%elem_of_selectTypesToPrune.
    exists type. split; [by apply wellFormed_getType|].
    rewrite prunesType_rules in Hprunes.
    apply existsb_rules in Hprunes as [rule Hrule].
    apply prunedBy_true in Hrule as (_ & Happlies & Hflag').
    destruct rule; cbn [ruleApplies skipFlag implementations] in Happlies, Hflag'.
    + by left.
    + by right.
    + by rewrite isUnimplemented_false in Happlies.
    + unfold isUnused in Happlies. cbn [unusedTypes] in Happlies.
      by rewrite Hflag in Happlies.
Qed.

Lemma reachable_pruned_only_when_empty_witness :
  let pass := {| pass_schema := emptyObjectSchema;
                 pass_typesToPrune := {["Empty"]} |} in
  (∀ pruningContext,
     visitTypes (createPruningContext (pass_schema pass)) = Some pruningContext →
     isUnused pruningContext "Empty" = false)
  ∧ ("Empty" ∈ pass_typesToPrune pass →
     ∃ type, getType (pass_schema pass) "Empty" = Some type
       ∧ (isEmptyComposite type = true
          ∧ skipEmptyCompositeTypePruning defaultOptions = false
          ∨ isEmptyUnion type = true
            ∧ skipEmptyUnionPruning defaultOptions = false)).
Proof.
  intros pass.
  apply (reachable_pruned_only_when_empty emptyObjectSchema defaultOptions pass
           "Empty").
  - vm_compute. reflexivity.
  - apply first_pass. vm_compute. reflexivity.
  - exists OutputPosition.
    apply (reaches_field _ _ "Query"
             (namedType "Query" (GraphQLObjectType [field "item" "Empty"] []))
             [field "item" "Empty"] (field "item" "Empty")); [|done|done|left].
    apply reaches_root. left.
Defined.

(** * Reserved names and exempted types *)

(** C8: in every pass of [pruneSchema], whatever the graph and the
    options, a name that starts with [__] is not in the removal set, and the
    unused-type analysis leaves it out: it is never flagged as unused. *)
Theorem reserved_types_never_pruned graph options pass typeName :
  pass ∈ passes graph options →
  isReserved typeName = true →
  (typeName ∉ pass_typesToPrune pass)
  ∧ (∀ pruningContext,
       visitTypes (createPruningContext (pass_schema pass)) = Some pruningContext →
       isUnused pruningContext typeName = false).
Proof.
  intros Hprune%passes_typesToPruneOf Hreserved.
  destruct (typesToPruneOf_Some _ _ _ Hprune) as (st & Hmark & Hselect).
  split.
  - rewrite Hselect.
    intros (type & Hin & <- & Hprunes)%elem_of_selectTypesToPrune.
    unfold prunesType in Hprunes. by rewrite Hreserved in Hprunes.
  - intros pruningContext (st' & Hmark' & _ & _ & Hunused)%visitTypes_Some.
    unfold isUnused. rewrite Hunused.
    rewrite (markTypes_unused _ st' typeName Hmark').
    repeat case_decide; try done. destruct_and!. congruence.
Qed.

Lemma reserved_types_never_pruned_witness :
  let pass := {| pass_schema := searchSchema; pass_typesToPrune := {["Stray"]} |} in
  ("__Internal" ∉ pass_typesToPrune pass)
  ∧ (∀ pruningContext,
       visitTypes (createPruningContext (pass_schema pass)) = Some pruningContext →
       isUnused pruningContext "__Internal" = false).
Proof.
  intros pass.
  apply (reserved_types_never_pruned searchSchema defaultOptions pass "__Internal").
  - apply first_pass. vm_compute. reflexivity.
  - reflexivity.
Defined.

Lemma typeMap_name_inj graph type type' :
  NoDup (typeNames graph) →
  type ∈ typeMap graph → type' ∈ typeMap graph →
  name type = name type' → type = type'.
Proof.
  intros Hnodup Hin Hin' Hname.
  pose proof (getType_elem_of _ _ Hnodup Hin) as Htype.
  pose proof (getType_elem_of _ _ Hnodup Hin') as Htype'.
  rewrite Hname in Htype. congruence.
Qed.

(** C9: with a [skipPruning] predicate, in every pass of [pruneSchema] a
    type of which the predicate holds is not in the removal set, whatever
    the flags and whichever rules apply to the type: the check of lines 57
    to 59 comes before the rules. *)
Theorem skipPruning_exempts graph options skip pass type :
  NoDup (typeNames graph) →
  skipPruning options = Some skip →
  pass ∈ passes graph options →
  type ∈ typeMap (pass_schema pass) →
  skip type = true →
  name type ∉ pass_typesToPrune pass.
Proof.
  intros Hnodup Hskip Hpass Hin Hexempt.
  pose proof (passes_NoDup _ _ _ Hnodup Hpass) as Hnodup'.
  apply passes_typesToPruneOf in Hpass as Hprune.
  destruct (typesToPruneOf_Some _ _ _ Hprune) as (st & Hmark & Hselect).
  rewrite Hselect.
  intros (type' & Hin' & Hname & Hprunes)%elem_of_selectTypesToPrune.
  assert (type' = type) as -> by by eapply typeMap_name_inj.
  unfold prunesType in Hprunes. rewrite Hskip in Hprunes. simpl in Hprunes.
  rewrite Hexempt in Hprunes. by destruct (isReserved (name type)).
Qed.

Lemma skipPruning_exempts_witness :
  let pass := {| pass_schema := searchSchema; pass_typesToPrune := ∅ |} in
  let stray := namedType "Stray" (GraphQLObjectType [field "label" "String"] []) in
  name stray ∉ pass_typesToPrune pass.
Proof.
  intros pass stray.
  apply (skipPruning_exempts searchSchema (keepNamed "Stray")
           (λ type, String.eqb (name type) "Stray") pass stray).
  - compute_done.
  - reflexivity.
  - apply first_pass. vm_compute. reflexivity.
  - right. right. left.
  - reflexivity.
Defined.

(** * Unimplemented interfaces *)

Lemma selectTypesToPrune_ext options options' pruningContext types :
  (∀ type, prunesType options pruningContext type
           = prunesType options' pruningContext type) →
  selectTypesToPrune options pruningContext types
  = selectTypesToPrune options' pruningContext types.
Proof.
  intros Hsame. unfold selectTypesToPrune. generalize (∅ : gset string).
  induction types as [|type types IH]; intros typesToPrune; [done|].
  cbn [foldl]. by rewrite Hsame, IH.
Qed.

(** The flag [skipUnimplementedInterfacesPruning] changes no removal set:
    the only condition that reads it is false of every type. *)
Lemma skipUnimplementedInterfacesPruning_inert graph options flag :
  typesToPruneOf graph (setSkipFlag UnimplementedInterfaceRule flag options)
  = typesToPruneOf graph options.
Proof.
  unfold typesToPruneOf, visitTypes.
  destruct (markTypes (createPruningContext graph)) as [st|]; [|done].
  simpl. f_equal. apply selectTypesToPrune_ext.
  intros type. rewrite !prunesType_rules. unfold rules, existsb.
  rewrite !(prunedBy_setSkipFlag _ UnimplementedInterfaceRule) by done.
  f_equal. f_equal. f_equal. unfold prunedBy.
  cbn [ruleApplies implementations].
  pose proof (isUnimplemented_false graph type) as Hfalse.
  cbn [createPruningContext implementations] in Hfalse.
  by rewrite Hfalse, !andb_false_r.
Qed.

(** On [type Query { node: Node }  interface Node { id: ID }  scalar ID]
    no type implements [Node], the index has no entry for it, the pass with
    the default options selects nothing, and [pruneSchema] returns the
    schema as it is, [Node] included, with
    [skipUnimplementedInterfacesPruning] off as well as on. *)
Example unimplemented_interface_kept :
  (∀ type, type ∈ typeMap unimplementedSchema → ¬ declares type "Node")
  ∧ getImplementations (implementations (createPruningContext unimplementedSchema))
      "Node" = None
  ∧ typesToPruneOf unimplementedSchema defaultOptions = Some ∅
  ∧ pruneSchema unimplementedSchema defaultOptions = Some unimplementedSchema
  ∧ pruneSchema unimplementedSchema
      (setSkipFlag UnimplementedInterfaceRule true defaultOptions)
    = Some unimplementedSchema.
Proof.
  split; [|split; [|split; [|split]]]; [|vm_compute; reflexivity..].
  intros type Hin (interfaces & Hinterfaces & Hiface).
  cbn [unimplementedSchema querySchema typeMap] in Hin.
  repeat (apply elem_of_cons in Hin as [->|Hin]);
    [..|by apply elem_of_nil in Hin];
    cbv in Hinterfaces; simplify_eq; by apply elem_of_nil in Hiface.
Qed.

(** * An interface whose entry in the index is there and empty *)



(** The contexts with an empty entry are the ones [visitTypes] gives from
    the context of [createPruningContext] with the entry added. *)
Lemma visitTypes_withEmptyEntry :
  visitTypes (withEmptyEntry "Node" (createPruningContext unimplementedSchema))
  = Some (emptyEntryContext unimplementedSchema false)
  ∧ visitTypes (withEmptyEntry "Node" (createPruningContext unreferencedSchema))
    = Some (emptyEntryContext unreferencedSchema true).
Proof. split; vm_compute; reflexivity. Qed.




(** With the flag on, an interface with an empty entry that has a field
    and is flagged as used is retained; with the flag off it is removed. *)
Example empty_entry_interface_flag :
  let pruningContext := emptyEntryContext unimplementedSchema false in
  (name nodeInterface
     ∉ selectTypesToPrune
         (setSkipFlag UnimplementedInterfaceRule true defaultOptions)
         pruningContext (typeMap unimplementedSchema))
  ∧ (name nodeInterface
       ∈ selectTypesToPrune defaultOptions pruningContext
           (typeMap unimplementedSchema)).
Proof. split; compute_done. Qed.

(** * The result of [pruneSchema] *)

Lemma pruneSchemaWithin_last_pass fuel graph options pruned :
  pruneSchemaWithin fuel graph options = Some pruned →
  last (passesWithin fuel graph options)
  = Some {| pass_schema := pruned; pass_typesToPrune := ∅ |}.
Proof.
  revert graph. induction fuel as [|fuel IH]; intros graph Hrun; [done|].
  cbn [pruneSchemaWithin passesWithin] in *.
  apply bind_Some in Hrun as (typesToPrune & Hprune & Hrun). rewrite Hprune.
  case_decide as Hsize.
  - apply size_zero_empty in Hsize as ->.
    rewrite mapSchema_nothing in Hrun. by simplify_eq.
  - apply IH in Hrun.
    destruct (passesWithin fuel _ options) as [|pass rest]; [done|].
    by rewrite last_cons, Hrun.
Qed.

(** C4: [pruneSchema] applied to its own output, with the same options,
    returns a graph with the same type names; the second run makes one
    pass, which removes nothing. *)
Theorem pruneSchema_idempotent graph options once :
  pruneSchema graph options = Some once →
  ∃ twice,
    pruneSchema once options = Some twice
    ∧ typeNames twice = typeNames once
    ∧ ∀ pass, pass ∈ passes once options → pass_typesToPrune pass = ∅.
Proof.
  intros Hfixed%pruneSchemaWithin_fixed.
  destruct (pruneSchema_fixed _ _ Hfixed) as [Hrun Hpasses].
  exists once. split; [done|]. split; [done|].
  rewrite Hpasses. by intros pass ->%list_elem_of_singleton.
Qed.

Lemma pruneSchema_idempotent_witness :
  let once := mapSchema cyclicSchema (pruneMapper {["Orphan"; "Twin"]}) in
  ∃ twice,
    pruneSchema once defaultOptions = Some twice
    ∧ typeNames twice = typeNames once
    ∧ ∀ pass, pass ∈ passes once defaultOptions → pass_typesToPrune pass = ∅.
Proof.
  intros once. apply (pruneSchema_idempotent cyclicSchema defaultOptions once).
  vm_compute. reflexivity.
Defined.

(** C5: the type names of the graph that [pruneSchema] returns are type
    names of its input, and so are those of the graph of every pass; the
    rebuild at the end of a pass adds no type to the graph of the pass. *)
Theorem pruneSchema_typeNames_subset graph options pruned :
  pruneSchema graph options = Some pruned →
  typeNames pruned ⊆ typeNames graph
  ∧ ∀ pass, pass ∈ passes graph options →
      typeNames (pass_schema pass) ⊆ typeNames graph
      ∧ typeNames (mapSchema (pass_schema pass)
                     (pruneMapper (pass_typesToPrune pass)))
        ⊆ typeNames (pass_schema pass).
Proof.
  intros Hrun. split.
  - by eapply sublist_subseteq, pruneSchemaWithin_sublist.
  - intros pass Hpass. split.
    + by eapply sublist_subseteq, passes_sublist.
    + apply sublist_subseteq, typeNames_mapSchema_sublist.
Qed.

Lemma pruneSchema_typeNames_subset_witness :
  let pruned := mapSchema cyclicSchema (pruneMapper {["Orphan"; "Twin"]}) in
  typeNames pruned ⊆ typeNames cyclicSchema
  ∧ ∀ pass, pass ∈ passes cyclicSchema defaultOptions →
      typeNames (pass_schema pass) ⊆ typeNames cyclicSchema
      ∧ typeNames (mapSchema (pass_schema pass)
                     (pruneMapper (pass_typesToPrune pass)))
        ⊆ typeNames (pass_schema pass).
Proof.
  intros pruned.
  apply (pruneSchema_typeNames_subset cyclicSchema defaultOptions pruned).
  vm_compute. reflexivity.
Defined.

(** * Termination *)

Lemma length_passesWithin fuel graph options :
  length (passesWithin fuel graph options) ≤ fuel.
Proof.
  revert graph. induction fuel as [|fuel IH]; intros graph; [done|].
  cbn [passesWithin].
  destruct (typesToPruneOf graph options) as [typesToPrune|]; [|simpl; lia].
  case_decide; simpl; [lia|].
  specialize (IH (mapSchema graph (pruneMapper typesToPrune))). lia.
Qed.

(** C6: on a well-formed graph [pruneSchema] returns.  The traversal of
    every pass returns within a recursion depth of the number of types
    plus one, cycles or not, since a call on a visited type returns at
    once; a pass that selects a type leaves fewer types than it found, and
    there are no more passes than types, plus the last.  Larger bounds on
    the depth and on the number of passes give the same results. *)
Theorem pruneSchema_terminates graph options :
  wellFormed graph = true →
  is_Some (pruneSchema graph options)
  ∧ (∀ fuel, pruneFuel graph ≤ fuel →
       pruneSchemaWithin fuel graph options = pruneSchema graph options)
  ∧ length (passes graph options) ≤ S (length (typeMap graph))
  ∧ ∀ pass, pass ∈ passes graph options →
      let pruningContext := createPruningContext (pass_schema pass) in
      is_Some (markTypes pruningContext)
      ∧ (∀ fuel, visitFuel (pass_schema pass) ≤ fuel →
           markTypesWithin fuel pruningContext = markTypes pruningContext)
      ∧ (pass_typesToPrune pass ≠ ∅ →
         length (typeMap (mapSchema (pass_schema pass)
                            (pruneMapper (pass_typesToPrune pass))))
         < length (typeMap (pass_schema pass))).
Proof.
  intros Hwf.
  assert (is_Some (pruneSchema graph options)) as [pruned Hrun].
  { apply pruneSchemaWithin_succeeds; [done|]. unfold pruneFuel. lia. }
  split; [by eexists|]. split; [|split].
  - intros fuel Hfuel. rewrite Hrun.
    by eapply pruneSchemaWithin_fuel_mono.
  - apply length_passesWithin.
  - intros pass Hpass pruningContext.
    destruct (passes_wellFormed _ _ _ Hwf Hpass) as [Hwf' Hprune].
    destruct (markTypes_succeeds _ Hwf') as [st Hmark].
    split; [by eexists|]. split.
    + intros fuel Hfuel. fold pruningContext in Hmark. rewrite Hmark.
      by eapply markTypesWithin_fuel_mono.
    + intros Hnonempty. eapply mapSchema_fewer_types; [exact Hprune|].
      intros Hsize. by apply Hnonempty, size_zero_empty.
Qed.

Lemma pruneSchema_terminates_witness :
  is_Some (pruneSchema cyclicSchema defaultOptions)
  ∧ (∀ fuel, pruneFuel cyclicSchema ≤ fuel →
       pruneSchemaWithin fuel cyclicSchema defaultOptions
       = pruneSchema cyclicSchema defaultOptions)
  ∧ length (passes cyclicSchema defaultOptions) ≤ S (length (typeMap cyclicSchema))
  ∧ ∀ pass, pass ∈ passes cyclicSchema defaultOptions →
      let pruningContext := createPruningContext (pass_schema pass) in
      is_Some (markTypes pruningContext)
      ∧ (∀ fuel, visitFuel (pass_schema pass) ≤ fuel →
           markTypesWithin fuel pruningContext = markTypes pruningContext)
      ∧ (pass_typesToPrune pass ≠ ∅ →
         length (typeMap (mapSchema (pass_schema pass)
                            (pruneMapper (pass_typesToPrune pass))))
         < length (typeMap (pass_schema pass))).
Proof.
  apply (pruneSchema_terminates cyclicSchema defaultOptions).
  vm_compute. reflexivity.
Defined.

(** * The flags, one rule each *)

(** C7, as stated, fails: on [type Query { holder: Holder }
    type Holder { choice: Choice }  union Choice], a run with the default
    options removes [Choice] as an empty union, then [Holder] and [Query] as
    types left without fields; with [skipEmptyUnionPruning] on and nothing
    else changed, the rule for types without fields, which that flag does
    not govern, removes nothing. *)
Lemma flag_changes_other_rule_in_run :
  removedByInRun EmptyCompositeRule cascadeSchema
    (setSkipFlag EmptyUnionRule true defaultOptions)
  ≠ removedByInRun EmptyCompositeRule cascadeSchema defaultOptions.
Proof.
  intros Hsame.
  apply (f_equal (λ removed : gset string, bool_decide ("Holder" ∈ removed)))
    in Hsame.
  vm_compute in Hsame. discriminate Hsame.
Qed.

(** C7, amended: within one pass over a graph, setting the skip flag of a
    rule changes nothing to the names that a rule governed by another flag
    removes; the removal set of the pass is made of the names that the four
    rules remove. *)
Theorem rules_independent_in_a_pass graph options rule rule' flag :
  rule ≠ rule' →
  removedBy rule graph (setSkipFlag rule' flag options)
  = removedBy rule graph options
  ∧ ∀ typesToPrune typeName,
      typesToPruneOf graph options = Some typesToPrune →
      typeName ∈ typesToPrune
      ↔ ∃ governing removed,
          removedBy governing graph options = Some removed ∧ typeName ∈ removed.
Proof.
  intros Hne. split.
  - unfold removedBy.
    destruct (visitTypes (createPruningContext graph)) as [pruningContext|];
      [|done].
    simpl. do 3 f_equal. apply list_filter_iff. intros type.
    by rewrite prunedBy_setSkipFlag.
  - intros typesToPrune typeName Hprune.
    destruct (typesToPruneOf_Some _ _ _ Hprune) as (st & Hmark & ->).
    assert (visitTypes (createPruningContext graph)
            = Some {| schema := graph; unusedTypes := unused st;
                      implementations := implementations (createPruningContext graph) |})
      as Hvisit.
    { unfold visitTypes. by rewrite Hmark. }
    rewrite elem_of_selectTypesToPrune. split.
    + intros (type & Hin & <- & Hprunes).
      rewrite prunesType_rules in Hprunes.
      apply existsb_rules in Hprunes as [governing Hgoverning].
      exists governing. unfold removedBy. rewrite Hvisit. eexists.
      split; [done|].
      apply elem_of_list_to_set, list_elem_of_fmap. exists type.
      split; [done|]. by apply list_elem_of_filter.
    + intros (governing & removed & Hremoved & Hin).
      apply (elem_of_removedBy _ _ _ _ _ Hremoved) in Hin
        as (pruningContext & type & Hvisit' & Hin & <- & Hpruned).
      assert (pruningContext
              = {| schema := graph; unusedTypes := unused st;
                   implementations := implementations (createPruningContext graph) |})
        as -> by congruence.
      exists type. split; [done|]. split; [done|].
      rewrite prunesType_rules. apply existsb_exists. exists governing.
      split; [|done]. destruct governing; cbn; tauto.
Qed.

Lemma rules_independent_in_a_pass_witness :
  removedBy EmptyCompositeRule cascadeSchema
    (setSkipFlag EmptyUnionRule true defaultOptions)
  = removedBy EmptyCompositeRule cascadeSchema defaultOptions
  ∧ ∀ typesToPrune typeName,
      typesToPruneOf cascadeSchema defaultOptions = Some typesToPrune →
      typeName ∈ typesToPrune
      ↔ ∃ governing removed,
          removedBy governing cascadeSchema defaultOptions = Some removed
          ∧ typeName ∈ removed.
Proof.
  apply (rules_independent_in_a_pass cascadeSchema defaultOptions
           EmptyCompositeRule EmptyUnionRule true).
  discriminate.
Defined.

(** * The two positions *)

Lemma elem_of_markedNames call calls :
  call ∈ calls → visit_marked call = true → visit_name call ∈ markedNames calls.
Proof.
  intros Hin Hmarked. unfold markedNames. apply list_elem_of_fmap.
  exists call. split; [done|]. by apply list_elem_of_filter.
Qed.

Lemma markedNames_elem_of typeName calls :
  typeName ∈ markedNames calls →
  ∃ position,
    {| visit_position := position; visit_name := typeName; visit_marked := true |}
      ∈ calls.
Proof.
  unfold markedNames.
  intros ([position typeName' marked] & -> & [Hmarked Hin]%list_elem_of_filter)
    %list_elem_of_fmap.
  simpl in *. subst marked. by exists position.
Qed.

(** Calls that marked the same name are one call, if no name was marked
    twice. *)
Lemma marked_calls_agree calls call call' :
  NoDup (markedNames calls) →
  call ∈ calls → call' ∈ calls →
  visit_marked call = true → visit_marked call' = true →
  visit_name call = visit_name call' →
  call = call'.
Proof.
  induction calls as [|head calls IH]; intros Hnodup Hin Hin' Hmarked Hmarked' Hname.
  - by apply elem_of_nil in Hin.
  - rewrite markedNames_cons in Hnodup.
    apply elem_of_cons in Hin as [->|Hin], Hin' as [->|Hin']; [done|..].
    + rewrite Hmarked in Hnodup. apply NoDup_cons in Hnodup as [Hfresh _].
      destruct Hfresh. rewrite Hname. by apply elem_of_markedNames.
    + rewrite Hmarked' in Hnodup. apply NoDup_cons in Hnodup as [Hfresh _].
      destruct Hfresh. rewrite <-Hname. by apply elem_of_markedNames.
    + apply IH; try done.
      destruct (visit_marked head); [by apply NoDup_cons in Hnodup as [_ ?]|done].
Qed.

(** C10, as stated, fails: in [type Query { find(term: String): [String!] }
    scalar String] the traversal reaches [String] in output position, as
    the type of the field [find], where it marks it, and then in input
    position, as the type of the argument [term], where the call returns at
    the visited check. *)
Lemma name_reached_in_both_positions :
  ∃ st,
    markTypes (createPruningContext searchSchema) = Some st
    ∧ {| visit_position := OutputPosition; visit_name := "String";
         visit_marked := true |} ∈ journal st
    ∧ {| visit_position := InputPosition; visit_name := "String";
         visit_marked := false |} ∈ journal st.
Proof.
  eexists. split; [vm_compute; reflexivity|].
  split; cbn [journal]; repeat first [by left|right].
Qed.

(** C10, amended: the visited set is shared by the two visit functions,
    and a name gets past the visited check at most once in a traversal, so
    no name is marked in both positions; the names of the visited set are
    the names that some call marked. *)
Theorem marked_in_one_position graph st typeName :
  markTypes (createPruningContext graph) = Some st →
  ¬ ({| visit_position := OutputPosition; visit_name := typeName;
        visit_marked := true |} ∈ journal st
     ∧ {| visit_position := InputPosition; visit_name := typeName;
          visit_marked := true |} ∈ journal st)
  ∧ (typeName ∈ visitedTypes st
     ↔ ∃ position,
         {| visit_position := position; visit_name := typeName;
            visit_marked := true |} ∈ journal st).
Proof.
  intros Hsteps%markTypes_steps.
  destruct (steps_markedNames _ _ Hsteps) as [Hnodup Hvisited].
  { simpl. apply NoDup_nil_2. }
  { simpl. by intros name ?%elem_of_nil. }
  split.
  - intros [Hout Hin].
    by pose proof (marked_calls_agree _ _ _ Hnodup Hout Hin eq_refl eq_refl eq_refl).
  - split.
    + intros Hin. apply markedNames_elem_of.
      eapply steps_journal_visited; [exact Hsteps| |done]. simpl. set_solver.
    + intros [position Hcall]. apply Hvisited.
      by apply (elem_of_markedNames _ _ Hcall).
Qed.

Lemma marked_in_one_position_witness :
  ∃ st,
    markTypes (createPruningContext searchSchema) = Some st
    ∧ ¬ ({| visit_position := OutputPosition; visit_name := "String";
            visit_marked := true |} ∈ journal st
         ∧ {| visit_position := InputPosition; visit_name := "String";
              visit_marked := true |} ∈ journal st)
    ∧ ("String" ∈ visitedTypes st
       ↔ ∃ position,
           {| visit_position := position; visit_name := "String";
              visit_marked := true |} ∈ journal st).
Proof.
  eexists. split; [vm_compute; reflexivity|].
  apply (marked_in_one_position searchSchema). vm_compute. reflexivity.
Defined.

(** * What holds of every call of the traversal *)

(** A condition on the calls that goes from a call to the calls it makes,
    and a condition on the marking that the two things a call does keep:
    the traversal keeps the latter if it starts from calls of the former. *)
Section Calls.
Variable graph : GraphQLSchema.
Variable index : gmap string (list string).
Variable called : Position → GraphQLNamedType → Prop.
Variable kept : Marking → Prop.

Hypothesis called_field : ∀ type fields field fieldType,
  called OutputPosition type → getFields type = Some fields → field ∈ fields →
  getType graph (getNamedType (field_type field)) = Some fieldType →
  called OutputPosition fieldType.
Hypothesis called_arg : ∀ type fields field arg argType,
  called OutputPosition type → getFields type = Some fields → field ∈ fields →
  arg ∈ field_args field →
  getType graph (getNamedType (arg_type arg)) = Some argType →
  called InputPosition argType.
Hypothesis called_implementer : ∀ type implementers implementer implementerType,
  called OutputPosition type → isInterfaceType type = true →
  getImplementations index (name type) = Some implementers →
  implementer ∈ implementers →
  getType graph implementer = Some implementerType →
  called OutputPosition implementerType.
Hypothesis called_interface : ∀ type interfaces iface ifaceType,
  called OutputPosition type → getInterfaces type = Some interfaces →
  iface ∈ interfaces → getType graph iface = Some ifaceType →
  called OutputPosition ifaceType.
Hypothesis called_member : ∀ type types member memberType,
  called OutputPosition type → definition type = GraphQLUnionType types →
  member ∈ types → getType graph member = Some memberType →
  called OutputPosition memberType.
Hypothesis called_input_field : ∀ type fields field fieldType,
  called InputPosition type → definition type = GraphQLInputObjectType fields →
  field ∈ fields →
  getType graph (getNamedType (input_field_type field)) = Some fieldType →
  called InputPosition fieldType.
Hypothesis kept_skip : ∀ position type st,
  called position type → name type ∈ visitedTypes st → kept st →
  kept (skipVisited position (name type) st).
Hypothesis kept_mark : ∀ position type st,
  called position type → name type ∉ visitedTypes st → kept st →
  kept (markVisited position (name type) st).

Lemma forOf_kept {A : Type} (body : Marking → A → option Marking)
    (xs : list A) (st st' : Marking) :
  forOf body st xs = Some st' →
  kept st →
  (∀ x st1 st2, x ∈ xs → kept st1 → body st1 x = Some st2 → kept st2) →
  kept st'.
Proof.
  intros Hrun Hkept Hbody.
  apply (forOf_invariant body (λ _, kept) xs st st' Hrun); [done|].
  intros done x st1 st2. apply Hbody.
Qed.

Lemma visitInputType_kept fuel st type st' :
  called InputPosition type → kept st →
  visitInputType fuel graph st type = Some st' → kept st'.
Proof.
  revert st type st'.
  induction fuel as [|fuel IH]; intros st type st' Hcalled Hkept Hrun; [done|].
  simpl in Hrun. case_decide as Hvisited.
  - simplify_eq. by apply kept_skip.
  - pose proof (kept_mark _ _ _ Hcalled Hvisited Hkept) as Hmarked.
    destruct (definition type) as [| | | | |fields] eqn:Hdef; simplify_eq; try done.
    eapply forOf_kept; [exact Hrun|done|].
    intros field st1 st2 Hfield Hkept1 (fieldType & Hnamed & Hvisit)%bind_Some.
    eapply IH; [|done|exact Hvisit]. by eapply called_input_field.
Qed.

Lemma visitArgs_kept fuel st args st' :
  (∀ arg argType, arg ∈ args →
     getType graph (getNamedType (arg_type arg)) = Some argType →
     called InputPosition argType) →
  kept st →
  visitArgs fuel graph st args = Some st' → kept st'.
Proof.
  intros Hargs Hkept Hrun. eapply forOf_kept; [exact Hrun|done|].
  intros arg st1 st2 Harg Hkept1 (argType & Htype & Hvisit)%bind_Some.
  eapply visitInputType_kept; [|done|exact Hvisit]. by eapply Hargs.
Qed.

Lemma visitOutputType_kept fuel st type st' :
  called OutputPosition type → kept st →
  visitOutputType fuel graph index st type = Some st' → kept st'.
Proof.
  revert st type st'.
  induction fuel as [|fuel IH]; intros st type st' Hcalled Hkept Hrun; [done|].
  assert (Hnames : ∀ typeNames st1 st2,
    (∀ typeName type', typeName ∈ typeNames →
       getType graph typeName = Some type' → called OutputPosition type') →
    kept st1 →
    forOf (λ st typeName,
             type ← getType graph typeName;
             visitOutputType fuel graph index st type) st1 typeNames = Some st2 →
    kept st2).
  { intros typeNames st1 st2 Hall Hkept1 Hloop.
    eapply forOf_kept; [exact Hloop|done|].
    intros typeName st3 st4 Hin Hkept3 (type' & Htype' & Hvisit)%bind_Some.
    eapply IH; [|done|exact Hvisit]. by eapply Hall. }
  assert (Hfields : ∀ fields st1 st2,
    getFields type = Some fields →
    kept st1 →
    forOf (λ st field,
             namedType ← getType graph (getNamedType (field_type field));
             st ← visitOutputType fuel graph index st namedType;
             visitArgs fuel graph st (field_args field)) st1 fields = Some st2 →
    kept st2).
  { intros fields st1 st2 Hfields Hkept1 Hloop.
    eapply forOf_kept; [exact Hloop|done|].
    intros field st3 st4 Hfield Hkept3
      (fieldType & Hnamed & (st5 & Hvisit & Hargs)%bind_Some)%bind_Some.
    eapply visitArgs_kept; [| |exact Hargs].
    - intros arg argType Harg Htype. by eapply called_arg.
    - eapply IH; [|done|exact Hvisit]. by eapply called_field. }
  simpl in Hrun. case_decide as Hvisited.
  - simplify_eq. by apply kept_skip.
  - pose proof (kept_mark _ _ _ Hcalled Hvisited Hkept) as Hmarked.
    destruct (definition type) as [|fields interfaces|fields interfaces|types| |]
      eqn:Hdef; simplify_eq; try done.
    + apply bind_Some in Hrun as (st1 & Hloop & Hloop').
      eapply Hnames; [| |exact Hloop'].
      * intros iface ifaceType Hiface Htype.
        eapply called_interface; [done| |done..]. unfold getInterfaces.
        by rewrite Hdef.
      * eapply Hfields; [|done|exact Hloop]. unfold getFields. by rewrite Hdef.
    + apply bind_Some in Hrun
        as (st1 & Hloop & (st2 & Hloop' & Hloop'')%bind_Some).
      assert (kept st1) as Hkept1.
      { eapply Hfields; [|done|exact Hloop]. unfold getFields. by rewrite Hdef. }
      eapply Hnames; [| |exact Hloop''].
      * intros iface ifaceType Hiface Htype.
        eapply called_interface; [done| |done..]. unfold getInterfaces.
        by rewrite Hdef.
      * destruct (getImplementations index (name type)) as [implementers|]
          eqn:Hentry; [|by simplify_eq].
        eapply Hnames; [|done|exact Hloop'].
        intros implementer implementerType Himpl Htype.
        eapply called_implementer; [done| |done..]. unfold isInterfaceType.
        by rewrite Hdef.
    + eapply Hnames; [|done|exact Hrun].
      intros member memberType Hmember Htype. by eapply called_member.
Qed.

Lemma markTypesWithin_kept fuel flags st :
  (∀ rootName rootType, rootName ∈ getRootTypes graph →
     getType graph rootName = Some rootType → called OutputPosition rootType) →
  (∀ directive arg argType, directive ∈ directives graph →
     arg ∈ directive_args directive →
     getType graph (getNamedType (arg_type arg)) = Some argType →
     called InputPosition argType) →
  kept {| visitedTypes := ∅;
          unused := foldl initUnused flags (typeNames graph);
          journal := [] |} →
  markTypesWithin fuel {| schema := graph; unusedTypes := flags;
                          implementations := index |} = Some st →
  kept st.
Proof.
  intros Hroots Hdirectives Hkept. unfold markTypesWithin.
  cbn [schema implementations unusedTypes].
  intros (st1 & Hloop & Hloop')%bind_Some.
  eapply forOf_kept; [exact Hloop'| |].
  - eapply forOf_kept; [exact Hloop|done|].
    intros rootName st2 st3 Hroot Hkept2 Hbody. cbv beta in Hbody.
    apply bind_Some in Hbody as (rootType & Htype & Hvisit).
    eapply visitOutputType_kept; [|done|exact Hvisit]. by eapply Hroots.
  - intros directive st2 st3 Hdirective Hkept2 Hargs. cbv beta in Hargs.
    eapply visitArgs_kept; [|done|exact Hargs].
    intros arg argType Harg Htype. by eapply Hdirectives.
Qed.

End Calls.

(** * The marker visits what is reachable, and nothing else *)

Lemma getType_typeNames graph typeName type :
  getType graph typeName = Some type → typeName ∈ typeNames graph.
Proof.
  intros [Hin <-]%getType_Some. unfold typeNames.
  apply list_elem_of_fmap. by exists type.
Qed.

(** Every visited name is a key of the type map that the rules of the
    traversal reach; no assumption on the graph. *)
Lemma markTypes_visited_reached graph st typeName :
  markTypes (createPruningContext graph) = Some st →
  typeName ∈ visitedTypes st →
  typeName ∈ typeNames graph ∧ reachable graph typeName.
Proof.
  intros Hmark. revert typeName.
  set (index := implementations (createPruningContext graph)).
  apply (markTypesWithin_kept graph index
           (λ position type,
              getType graph (name type) = Some type
              ∧ reaches graph index position (name type))
           (λ st, ∀ typeName, typeName ∈ visitedTypes st →
                    typeName ∈ typeNames graph ∧ reachable graph typeName))
    with (fuel := visitFuel graph) (flags := ∅); [..|exact Hmark].
  - intros type fields field fieldType [Htype Hreach] Hfields Hfield Hnamed.
    split; [by eapply getType_name|].
    destruct (getType_Some _ _ _ Hnamed) as [_ ->].
    by eapply reaches_field.
  - intros type fields field arg argType [Htype Hreach] Hfields Hfield Harg Hnamed.
    split; [by eapply getType_name|].
    destruct (getType_Some _ _ _ Hnamed) as [_ ->].
    by eapply reaches_arg.
  - intros type implementers implementer implementerType [Htype Hreach]
      Hkind Hentry Himpl Hnamed.
    split; [by eapply getType_name|].
    destruct (getType_Some _ _ _ Hnamed) as [_ ->].
    by eapply reaches_implementer.
  - intros type interfaces iface ifaceType [Htype Hreach] Hinterfaces Hiface Hnamed.
    split; [by eapply getType_name|].
    destruct (getType_Some _ _ _ Hnamed) as [_ ->].
    by eapply reaches_interface.
  - intros type types member memberType [Htype Hreach] Hdef Hmember Hnamed.
    split; [by eapply getType_name|].
    destruct (getType_Some _ _ _ Hnamed) as [_ ->].
    by eapply reaches_member.
  - intros type fields field fieldType [Htype Hreach] Hdef Hfield Hnamed.
    split; [by eapply getType_name|].
    destruct (getType_Some _ _ _ Hnamed) as [_ ->].
    by eapply reaches_input_field.
  - intros position type st' _ _ Hkept. exact Hkept.
  - intros position type st' [Htype Hreach] _ Hkept typeName.
    cbn [markVisited visitedTypes].
    intros [->%elem_of_singleton|Hin]%elem_of_union; [|by apply Hkept].
    split; [by eapply getType_typeNames|by exists position].
  - intros rootName rootType Hroot Hnamed.
    split; [by eapply getType_name|].
    destruct (getType_Some _ _ _ Hnamed) as [_ ->]. by apply reaches_root.
  - intros directive arg argType Hdirective Harg Hnamed.
    split; [by eapply getType_name|].
    destruct (getType_Some _ _ _ Hnamed) as [_ ->]. by eapply reaches_directive.
  - cbn [visitedTypes]. intros typeName Hin. set_solver.
Qed.

Lemma markTypes_visited_iff graph st typeName :
  wellFormed graph = true →
  markTypes (createPruningContext graph) = Some st →
  typeName ∈ visitedTypes st ↔ reachable graph typeName.
Proof.
  intros Hwf Hmark. split.
  - intros Hin. by eapply markTypes_visited_reached.
  - intros [position Hreach]. by eapply markTypes_reaches.
Qed.

Lemma isUnused_iff graph pruningContext typeName :
  wellFormed graph = true →
  visitTypes (createPruningContext graph) = Some pruningContext →
  isUnused pruningContext typeName = true
  ↔ typeName ∈ typeNames graph
    ∧ isReserved typeName = false
    ∧ ¬ reachable graph typeName.
Proof.
  intros Hwf (st & Hmark & _ & _ & Hflags)%visitTypes_Some.
  unfold isUnused. rewrite Hflags, (markTypes_unused _ _ typeName Hmark).
  rewrite <-(markTypes_visited_iff graph st typeName Hwf Hmark).
  repeat case_decide; simpl; naive_solver.
Qed.

(** X1: after [visitTypes] on a well-formed graph, the flag of a name is
    set exactly when the name is an unreserved key of the type map that
    the traversal rules do not reach from the roots and the directives. *)
Theorem unused_iff_unreachable graph pruningContext typeName :
  wellFormed graph = true →
  visitTypes (createPruningContext graph) = Some pruningContext →
  isUnused pruningContext typeName = true
  ↔ typeName ∈ typeNames graph
    ∧ isReserved typeName = false
    ∧ ¬ reachable graph typeName.
Proof. apply isUnused_iff. Qed.

Lemma unused_iff_unreachable_witness :
  ∃ pruningContext,
    visitTypes (createPruningContext cyclicSchema) = Some pruningContext
    ∧ (isUnused pruningContext "Twin" = true
       ↔ "Twin" ∈ typeNames cyclicSchema
         ∧ isReserved "Twin" = false
         ∧ ¬ reachable cyclicSchema "Twin").
Proof.
  eexists. split; [vm_compute; reflexivity|].
  apply (unused_iff_unreachable cyclicSchema).
  - vm_compute. reflexivity.
  - vm_compute. reflexivity.
Defined.

(** * The removal set of a pass *)

Lemma eligible_true options type :
  eligible options type = true
  ↔ isReserved (name type) = false
    ∧ from_option (λ skip, skip type) false (skipPruning options) = false.
Proof.
  unfold eligible. rewrite andb_true_iff, !negb_true_iff. done.
Qed.

Lemma selection_iff graph options typesToPrune typeName :
  wellFormed graph = true →
  typesToPruneOf graph options = Some typesToPrune →
  typeName ∈ typesToPrune
  ↔ ∃ type,
      getType graph typeName = Some type
      ∧ eligible options type = true
      ∧ (isEmptyComposite type = true
         ∧ skipEmptyCompositeTypePruning options = false
         ∨ isEmptyUnion type = true
           ∧ skipEmptyUnionPruning options = false
         ∨ ¬ reachable graph typeName
           ∧ skipUnusedTypesPruning options = false).
Proof.
  intros Hwf Hprune.
  destruct (typesToPruneOf_Some _ _ _ Hprune) as (st & Hmark & ->).
  set (pruningContext :=
         {| schema := graph; unusedTypes := unused st;
            implementations := implementations (createPruningContext graph) |}).
  assert (visitTypes (createPruningContext graph) = Some pruningContext) as Hvisit.
  { unfold visitTypes. by rewrite Hmark. }
  assert (∀ type, type ∈ typeMap graph →
            isUnused pruningContext (name type) = true
            ↔ isReserved (name type) = false ∧ ¬ reachable graph (name type))
    as Hunused.
  { intros type Hin.
    unfold isUnused. cbn [pruningContext unusedTypes].
    rewrite (markTypes_unused _ _ (name type) Hmark).
    rewrite <-(markTypes_visited_iff graph st (name type) Hwf Hmark).
    assert (name type ∈ typeNames graph).
    { unfold typeNames. apply list_elem_of_fmap. by exists type. }
    repeat case_decide; simpl; naive_solver. }
  rewrite elem_of_selectTypesToPrune. split.
  - intros (type & Hin & <- & Hprunes). exists type.
    split; [by apply wellFormed_getType|].
    rewrite prunesType_rules in Hprunes.
    apply existsb_rules in Hprunes as [rule Hrule].
    apply prunedBy_true in Hrule as (Heligible & Happlies & Hflag).
    split; [done|].
    destruct rule; cbn [ruleApplies skipFlag] in Happlies, Hflag.
    + by left.
    + right. by left.
    + unfold pruningContext in Happlies. cbn [implementations] in Happlies.
      by rewrite isUnimplemented_false in Happlies.
    + right. right. split; [|done]. by apply Hunused.
  - intros (type & Htype & Heligible & Hrule).
    destruct (getType_Some _ _ _ Htype) as [Hin <-].
    exists type. split; [done|]. split; [done|].
    rewrite prunesType_rules. apply existsb_exists.
    apply eligible_true in Heligible as Hparts. destruct Hparts as [Hreserved _].
    destruct Hrule as [[Hempty Hflag]|[[Hempty Hflag]|[Hunreachable Hflag]]].
    + exists EmptyCompositeRule. split; [by left|].
      unfold prunedBy. cbn [ruleApplies skipFlag].
      by rewrite Heligible, Hempty, Hflag.
    + exists EmptyUnionRule. split; [right; by left|].
      unfold prunedBy. cbn [ruleApplies skipFlag].
      by rewrite Heligible, Hempty, Hflag.
    + exists UnusedTypeRule. split; [do 3 right; by left|].
      unfold prunedBy. cbn [ruleApplies skipFlag].
      rewrite Heligible, Hflag, (proj2 (Hunused type Hin)); done.
Qed.

(** X2: the removal set of a pass over a well-formed graph holds the name
    of a type exactly when the name is not reserved, [skipPruning] does not
    exempt the type, and the type is without fields (and
    [skipEmptyCompositeTypePruning] is off), or a union without members (and
    [skipEmptyUnionPruning] is off), or not reachable (and
    [skipUnusedTypesPruning] is off). *)
Theorem typesToPrune_iff graph options typesToPrune typeName :
  wellFormed graph = true →
  typesToPruneOf graph options = Some typesToPrune →
  typeName ∈ typesToPrune
  ↔ ∃ type,
      getType graph typeName = Some type
      ∧ eligible options type = true
      ∧ (isEmptyComposite type = true
         ∧ skipEmptyCompositeTypePruning options = false
         ∨ isEmptyUnion type = true
           ∧ skipEmptyUnionPruning options = false
         ∨ ¬ reachable graph typeName
           ∧ skipUnusedTypesPruning options = false).
Proof. apply selection_iff. Qed.

Lemma typesToPrune_iff_witness :
  "Twin" ∈ ({["Orphan"; "Twin"]} : gset string)
  ↔ ∃ type,
      getType cyclicSchema "Twin" = Some type
      ∧ eligible defaultOptions type = true
      ∧ (isEmptyComposite type = true
         ∧ skipEmptyCompositeTypePruning defaultOptions = false
         ∨ isEmptyUnion type = true
           ∧ skipEmptyUnionPruning defaultOptions = false
         ∨ ¬ reachable cyclicSchema "Twin"
           ∧ skipUnusedTypesPruning defaultOptions = false).
Proof.
  apply (typesToPrune_iff cyclicSchema defaultOptions).
  - vm_compute. reflexivity.
  - vm_compute. reflexivity.
Defined.

(** * The graph that [pruneSchema] returns *)

Lemma pruneSchemaWithin_wellFormed fuel graph options pruned :
  wellFormed graph = true →
  pruneSchemaWithin fuel graph options = Some pruned →
  wellFormed pruned = true.
Proof.
  revert graph. induction fuel as [|fuel IH]; intros graph Hwf Hrun; [done|].
  cbn [pruneSchemaWithin] in Hrun.
  apply bind_Some in Hrun as (typesToPrune & Hprune & Hrun).
  case_decide as Hsize.
  - simplify_eq. by apply wellFormed_mapSchema.
  - eapply IH; [|exact Hrun]. by apply wellFormed_mapSchema.
Qed.

(** X3: in the graph that [pruneSchema] returns for a well-formed graph,
    every type that is neither reserved nor exempted has a field if it is an
    object, interface or input object type, a member if it is a union, and
    is reachable from the roots or the directives, each unless the rule's
    flag is on. *)
Theorem pruned_types_pass_the_rules graph options pruned type :
  wellFormed graph = true →
  pruneSchema graph options = Some pruned →
  type ∈ typeMap pruned →
  eligible options type = true →
  (skipEmptyCompositeTypePruning options = false → isEmptyComposite type = false)
  ∧ (skipEmptyUnionPruning options = false → isEmptyUnion type = false)
  ∧ (skipUnusedTypesPruning options = false → reachable pruned (name type)).
Proof.
  intros Hwf Hrun Hin Heligible.
  pose proof (pruneSchemaWithin_wellFormed _ _ _ _ Hwf Hrun) as Hwf'.
  pose proof (pruneSchemaWithin_fixed _ _ _ _ Hrun) as Hfixed.
  pose proof (selection_iff pruned options ∅ (name type) Hwf' Hfixed) as Hiff.
  pose proof (wellFormed_getType _ _ Hwf' Hin) as Htype.
  destruct (typesToPruneOf_Some _ _ _ Hfixed) as (st & Hmark & _).
  split; [|split].
  - intros Hflag. destruct (isEmptyComposite type) eqn:Hempty; [|done].
    exfalso. apply (not_elem_of_empty (C:=gset string) (name type)).
    apply Hiff. exists type. naive_solver.
  - intros Hflag. destruct (isEmptyUnion type) eqn:Hempty; [|done].
    exfalso. apply (not_elem_of_empty (C:=gset string) (name type)).
    apply Hiff. exists type. naive_solver.
  - intros Hflag.
    apply (markTypes_visited_iff pruned st (name type) Hwf' Hmark).
    destruct (decide (name type ∈ visitedTypes st)) as [|Hunvisited]; [done|].
    exfalso. apply (not_elem_of_empty (C:=gset string) (name type)).
    apply Hiff. exists type.
    split; [done|]. split; [done|]. right. right. split; [|done].
    by rewrite <-(markTypes_visited_iff pruned st (name type) Hwf' Hmark).
Qed.

Lemma pruned_types_pass_the_rules_witness :
  let holder := namedType "Query" (GraphQLObjectType [field "node" "Node"] []) in
  (skipEmptyCompositeTypePruning defaultOptions = false →
   isEmptyComposite holder = false)
  ∧ (skipEmptyUnionPruning defaultOptions = false → isEmptyUnion holder = false)
  ∧ (skipUnusedTypesPruning defaultOptions = false →
     reachable unimplementedSchema (name holder)).
Proof.
  intros holder.
  apply (pruned_types_pass_the_rules
           (querySchema (typeMap unimplementedSchema
                           ++ [namedType "Stray" GraphQLEnumType]) [])
           defaultOptions unimplementedSchema holder).
  - vm_compute. reflexivity.
  - vm_compute. reflexivity.
  - left.
  - reflexivity.
Defined.

Lemma elem_of_typeNames_mapSchema graph typesToPrune typeName :
  typeName ∈ typeNames (mapSchema graph (pruneMapper typesToPrune))
  ↔ typeName ∈ typeNames graph ∧ typeName ∉ typesToPrune.
Proof.
  rewrite typeNames_mapSchema. unfold typeNames.
  rewrite !list_elem_of_fmap. setoid_rewrite list_elem_of_filter.
  setoid_rewrite pruneMapper_null. naive_solver.
Qed.

Lemma pruneSchemaWithin_typeNames fuel graph options pruned typeName :
  pruneSchemaWithin fuel graph options = Some pruned →
  typeName ∈ typeNames pruned
  ↔ typeName ∈ typeNames graph
    ∧ ∀ pass, pass ∈ passesWithin fuel graph options →
        typeName ∉ pass_typesToPrune pass.
Proof.
  revert graph. induction fuel as [|fuel IH]; intros graph Hrun; [done|].
  cbn [pruneSchemaWithin passesWithin] in *.
  apply bind_Some in Hrun as (typesToPrune & Hprune & Hrun). rewrite Hprune.
  case_decide as Hsize.
  - simplify_eq. rewrite elem_of_typeNames_mapSchema. split.
    + intros [Hin Hkept]. split; [done|].
      by intros pass ->%list_elem_of_singleton.
    + intros [Hin Hkept]. split; [done|]. apply (Hkept (Build_Pass graph typesToPrune)).
      left.
  - rewrite (IH _ Hrun), elem_of_typeNames_mapSchema. split.
    + intros [[Hin Hkept] Hrest]. split; [done|].
      intros pass [->|Hpass]%elem_of_cons; [done|]. by apply Hrest.
    + intros [Hin Hkept]. split; [split; [done|]|].
      * apply (Hkept (Build_Pass graph typesToPrune)). left.
      * intros pass Hpass. apply Hkept. by right.
Qed.

(** X4: the types of the graph that [pruneSchema] returns are the types
    of its input whose names are in the removal set of no pass. *)
Theorem pruned_typeNames_iff graph options pruned typeName :
  pruneSchema graph options = Some pruned →
  typeName ∈ typeNames pruned
  ↔ typeName ∈ typeNames graph
    ∧ ∀ pass, pass ∈ passes graph options → typeName ∉ pass_typesToPrune pass.
Proof. apply pruneSchemaWithin_typeNames. Qed.

Lemma pruned_typeNames_iff_witness :
  let pruned := mapSchema cyclicSchema (pruneMapper {["Orphan"; "Twin"]}) in
  "Post" ∈ typeNames pruned
  ↔ "Post" ∈ typeNames cyclicSchema
    ∧ ∀ pass, pass ∈ passes cyclicSchema defaultOptions →
        "Post" ∉ pass_typesToPrune pass.
Proof.
  intros pruned. apply (pruned_typeNames_iff cyclicSchema defaultOptions pruned).
  vm_compute. reflexivity.
Defined.

(** * The flags *)

Lemma pruneSchemaWithin_inert fuel graph options flag :
  pruneSchemaWithin fuel graph
    (setSkipFlag UnimplementedInterfaceRule flag options)
  = pruneSchemaWithin fuel graph options
  ∧ passesWithin fuel graph
      (setSkipFlag UnimplementedInterfaceRule flag options)
    = passesWithin fuel graph options.
Proof.
  revert graph. induction fuel as [|fuel IH]; intros graph; [done|].
  cbn [pruneSchemaWithin passesWithin].
  rewrite skipUnimplementedInterfacesPruning_inert.
  destruct (typesToPruneOf graph options) as [typesToPrune|]; [|done]. simpl.
  case_decide; [done|].
  destruct (IH (mapSchema graph (pruneMapper typesToPrune))) as [-> ->]. done.
Qed.

(** X5: [skipUnimplementedInterfacesPruning] has no effect: whatever the
    graph and the other options, [pruneSchema] makes the same passes and
    returns the same result with the flag on and with the flag off. *)
Theorem skipUnimplementedInterfacesPruning_no_effect graph options flag :
  pruneSchema graph (setSkipFlag UnimplementedInterfaceRule flag options)
  = pruneSchema graph options
  ∧ passes graph (setSkipFlag UnimplementedInterfaceRule flag options)
    = passes graph options.
Proof. apply pruneSchemaWithin_inert. Qed.

Lemma prunesType_setSkipFlag rule options pruningContext type :
  prunesType (setSkipFlag rule true options) pruningContext type = true →
  prunesType options pruningContext type = true.
Proof.
  rewrite !prunesType_rules.
  intros (governing & Hin & Hpruned)%existsb_exists.
  apply existsb_exists. exists governing. split; [done|].
  unfold prunedBy in *. rewrite skipFlag_setSkipFlag in Hpruned.
  case_decide; [by rewrite andb_false_r in Hpruned|done].
Qed.

(** X6: turning a skip flag on never adds a name to the removal set of a
    pass: the removal set with the flag on is a subset of the removal set
    with the options as they were. *)
Theorem skip_flag_only_shrinks graph options rule typesToPrune :
  typesToPruneOf graph options = Some typesToPrune →
  ∃ typesToPrune',
    typesToPruneOf graph (setSkipFlag rule true options) = Some typesToPrune'
    ∧ typesToPrune' ⊆ typesToPrune.
Proof.
  intros (st & Hmark & ->)%typesToPruneOf_Some.
  unfold typesToPruneOf, visitTypes. rewrite Hmark. simpl.
  eexists. split; [done|]. intros typeName.
  rewrite !elem_of_selectTypesToPrune.
  intros (type & Hin & Hname & Hprunes). exists type.
  split; [done|]. split; [done|]. by eapply prunesType_setSkipFlag.
Qed.

Lemma skip_flag_only_shrinks_witness :
  ∃ typesToPrune',
    typesToPruneOf cascadeSchema (setSkipFlag EmptyUnionRule true defaultOptions)
    = Some typesToPrune'
    ∧ typesToPrune' ⊆ {["Choice"]}.
Proof.
  apply (skip_flag_only_shrinks cascadeSchema defaultOptions EmptyUnionRule).
  vm_compute. reflexivity.
Defined.

(** * What one call of a visit function does to the marking *)

Lemma visitInputType_visited fuel graph st type st' :
  visitInputType fuel graph st type = Some st' → name type ∈ visitedTypes st'.
Proof.
  destruct fuel as [|fuel]; [done|]. simpl. case_decide as Hvisited.
  - by intros [= <-].
  - intros Hrun.
    assert (rtc step (markVisited InputPosition (name type) st) st') as Hsteps.
    { destruct (definition type); simplify_eq; try done.
      eapply (forOf_related (rtc step)); [exact Hrun|].
      intros field st1 st2 _ (namedType & _ & Hvisit)%bind_Some.
      by eapply visitInputType_steps. }
    apply (steps_visitedTypes _ _ Hsteps). simpl. set_solver.
Qed.

Lemma visitOutputType_visited fuel graph index st type st' :
  visitOutputType fuel graph index st type = Some st' →
  name type ∈ visitedTypes st'.
Proof.
  destruct fuel as [|fuel]; [done|].
  assert (Hnames : ∀ typeNames st1 st2,
    forOf (λ st typeName,
             type ← getType graph typeName;
             visitOutputType fuel graph index st type) st1 typeNames = Some st2 →
    rtc step st1 st2).
  { intros typeNames st1 st2 Hloop.
    eapply (forOf_related (rtc step)); [exact Hloop|].
    intros typeName st3 st4 _ (type' & _ & Hvisit)%bind_Some.
    by eapply visitOutputType_steps. }
  assert (Hfields : ∀ fields st1 st2,
    forOf (λ st field,
             namedType ← getType graph (getNamedType (field_type field));
             st ← visitOutputType fuel graph index st namedType;
             visitArgs fuel graph st (field_args field)) st1 fields = Some st2 →
    rtc step st1 st2).
  { intros fields st1 st2 Hloop.
    eapply (forOf_related (rtc step)); [exact Hloop|].
    intros field st3 st4 _
      (namedType & _ & (st5 & Hvisit & Hargs)%bind_Some)%bind_Some.
    etrans; [by eapply visitOutputType_steps|by eapply visitArgs_steps]. }
  simpl. case_decide as Hvisited.
  - by intros [= <-].
  - intros Hrun.
    assert (rtc step (markVisited OutputPosition (name type) st) st') as Hsteps.
    { destruct (definition type) as [|fields interfaces|fields interfaces|types| |];
        simplify_eq; try done.
      - apply bind_Some in Hrun as (st1 & Hloop & Hloop'). etrans; eauto.
      - apply bind_Some in Hrun
          as (st1 & Hloop & (st2 & Hloop' & Hloop'')%bind_Some).
        etrans; [eauto|]. etrans; [|eauto].
        destruct (getImplementations index (name type)); simplify_eq;
          [eauto|reflexivity].
      - eauto. }
    apply (steps_visitedTypes _ _ Hsteps). simpl. set_solver.
Qed.

(** X7: a call of [visitOutputType] that returns leaves its type visited,
    keeps every visited name visited, sets to [false] the flag of every
    name it newly visited, and leaves every other flag of [unusedTypes] as
    it was; it never sets a flag to [true]. *)
Theorem visitOutputType_frame fuel graph index st type st' :
  visitOutputType fuel graph index st type = Some st' →
  name type ∈ visitedTypes st'
  ∧ visitedTypes st ⊆ visitedTypes st'
  ∧ ∀ typeName,
      unused st' !! typeName
      = if decide (typeName ∈ visitedTypes st' ∖ visitedTypes st) then Some false
        else unused st !! typeName.
Proof.
  intros Hrun. pose proof (visitOutputType_steps _ _ _ _ _ _ Hrun) as Hsteps.
  split; [by eapply visitOutputType_visited|].
  split; [by apply steps_visitedTypes|].
  intros typeName. by apply steps_unused.
Qed.

Lemma visitOutputType_frame_witness :
  let query := namedType "Query" (GraphQLObjectType [field "item" "Empty"] []) in
  let st := {| visitedTypes := ∅; unused := {["Empty" := true]}; journal := [] |} in
  ∃ st',
    visitOutputType 3 emptyObjectSchema ∅ st query = Some st'
    ∧ name query ∈ visitedTypes st'
    ∧ visitedTypes st ⊆ visitedTypes st'
    ∧ ∀ typeName,
        unused st' !! typeName
        = if decide (typeName ∈ visitedTypes st' ∖ visitedTypes st) then Some false
          else unused st !! typeName.
Proof.
  intros query st. eexists. split; [vm_compute; reflexivity|].
  apply (visitOutputType_frame 3 emptyObjectSchema ∅ st query).
  vm_compute. reflexivity.
Defined.

(** X8: the same of [visitInputType]. *)
Theorem visitInputType_frame fuel graph st type st' :
  visitInputType fuel graph st type = Some st' →
  name type ∈ visitedTypes st'
  ∧ visitedTypes st ⊆ visitedTypes st'
  ∧ ∀ typeName,
      unused st' !! typeName
      = if decide (typeName ∈ visitedTypes st' ∖ visitedTypes st) then Some false
        else unused st !! typeName.
Proof.
  intros Hrun. pose proof (visitInputType_steps _ _ _ _ _ Hrun) as Hsteps.
  split; [by eapply visitInputType_visited|].
  split; [by apply steps_visitedTypes|].
  intros typeName. by apply steps_unused.
Qed.

Lemma visitInputType_frame_witness :
  let filter := namedType "Filter"
    (GraphQLInputObjectType
       [ {| input_field_name := "not"; input_field_type := NamedTypeRef "Filter" |};
         {| input_field_name := "id"; input_field_type := NamedTypeRef "ID" |} ]) in
  let st := {| visitedTypes := {["ID"]}; unused := {["Filter" := true]};
               journal := [] |} in
  ∃ st',
    visitInputType 2 cyclicSchema st filter = Some st'
    ∧ name filter ∈ visitedTypes st'
    ∧ visitedTypes st ⊆ visitedTypes st'
    ∧ ∀ typeName,
        unused st' !! typeName
        = if decide (typeName ∈ visitedTypes st' ∖ visitedTypes st) then Some false
          else unused st !! typeName.
Proof.
  intros filter st. eexists. split; [vm_compute; reflexivity|].
  apply (visitInputType_frame 2 cyclicSchema st filter).
  vm_compute. reflexivity.
Defined.

(** * How much the traversal does *)

(** X9: in a traversal that returns, the calls that get past the visited
    check are made with distinct names, all of them keys of the type map:
    there are no more of them than types. *)
Theorem marking_calls_bounded graph st :
  markTypes (createPruningContext graph) = Some st →
  NoDup (markedNames (journal st))
  ∧ markedNames (journal st) ⊆ typeNames graph
  ∧ length (markedNames (journal st)) ≤ length (typeMap graph).
Proof.
  intros Hmark. pose proof (markTypes_steps _ _ Hmark) as Hsteps.
  destruct (steps_markedNames _ _ Hsteps) as [Hnodup Hvisited].
  { simpl. apply NoDup_nil_2. }
  { simpl. by intros name ?%elem_of_nil. }
  assert (markedNames (journal st) ⊆ typeNames graph) as Hsub.
  { intros typeName Hin. by eapply markTypes_visited_reached, Hvisited. }
  split; [done|]. split; [done|].
  unfold typeNames in *.
  rewrite <-(length_fmap name (typeMap graph)).
  by apply submseteq_length, NoDup_submseteq.
Qed.

Lemma marking_calls_bounded_witness :
  ∃ st,
    markTypes (createPruningContext cyclicSchema) = Some st
    ∧ NoDup (markedNames (journal st))
    ∧ markedNames (journal st) ⊆ typeNames cyclicSchema
    ∧ length (markedNames (journal st)) ≤ length (typeMap cyclicSchema).
Proof.
  eexists. split; [vm_compute; reflexivity|].
  apply (marking_calls_bounded cyclicSchema). vm_compute. reflexivity.
Defined.

(** * The casts of the visit functions *)

(** X10: on a well-formed graph every call of the traversal is made with
    a type of the kind that its position expects: [visitOutputType] is
    never called with an input object type, [visitInputType] only with
    scalar, enum and input object types. *)
Theorem calls_fit_their_position graph st call :
  wellFormed graph = true →
  markTypes (createPruningContext graph) = Some st →
  call ∈ journal st →
  callFits graph call.
Proof.
  intros Hwf Hmark. revert call.
  set (index := implementations (createPruningContext graph)).
  assert (Hreference : ∀ kind typeName type,
    resolvesTo graph kind typeName = true →
    getType graph typeName = Some type →
    getType graph (name type) = Some type ∧ kind type = true).
  { intros kind typeName type (type' & Htype' & Hkind)%resolvesTo_true Htype.
    split; [by eapply getType_name|congruence]. }
  assert (Hfields : ∀ type fields field,
    getType graph (name type) = Some type → getFields type = Some fields →
    field ∈ fields → wellFormedField graph field = true).
  { intros type fields field [Hin _]%getType_Some Hfields Hfield.
    pose proof (wellFormed_type _ _ Hwf Hin) as Hwft.
    unfold wellFormedType in Hwft. unfold getFields in Hfields.
    destruct (definition type); simplify_eq;
      apply andb_true_iff in Hwft as [Hwff _]; by eapply forallb_elem_of. }
  apply (markTypesWithin_kept graph index
           (λ position type,
              getType graph (name type) = Some type
              ∧ kindFits position type = true)
           (λ st, ∀ call, call ∈ journal st → callFits graph call))
    with (fuel := visitFuel graph) (flags := ∅); [..|exact Hmark].
  - intros type fields field fieldType [Htype _] Hgot Hfield Hnamed.
    pose proof (Hfields _ _ _ Htype Hgot Hfield) as Hwff.
    apply andb_true_iff in Hwff as [Hresolves _]. by eapply Hreference.
  - intros type fields field arg argType [Htype _] Hgot Hfield Harg Hnamed.
    pose proof (Hfields _ _ _ Htype Hgot Hfield) as Hwff.
    apply andb_true_iff in Hwff as [_ Hargs].
    eapply (Hreference isInputType); [|done].
    by apply (forallb_elem_of _ _ _ Hargs).
  - intros type implementers implementer implementerType [Htype _]
      Hkind Hentry Himpl Hnamed.
    eapply (Hreference isOutputType); [|done]. by eapply wellFormed_implementer.
  - intros type interfaces iface ifaceType [[Hin _]%getType_Some _]
      Hinterfaces Hiface Hnamed.
    pose proof (wellFormed_type _ _ Hwf Hin) as Hwft.
    unfold wellFormedType in Hwft. unfold getInterfaces in Hinterfaces.
    eapply (Hreference isOutputType); [|done].
    destruct (definition type); simplify_eq;
      apply andb_true_iff in Hwft as [_ Hwfi]; by eapply forallb_elem_of.
  - intros type types member memberType [[Hin _]%getType_Some _]
      Hdef Hmember Hnamed.
    pose proof (wellFormed_type _ _ Hwf Hin) as Hwft.
    unfold wellFormedType in Hwft. rewrite Hdef in Hwft.
    eapply (Hreference isOutputType); [|done]. by eapply forallb_elem_of.
  - intros type fields field fieldType [[Hin _]%getType_Some _]
      Hdef Hfield Hnamed.
    pose proof (wellFormed_type _ _ Hwf Hin) as Hwft.
    unfold wellFormedType in Hwft. rewrite Hdef in Hwft.
    eapply (Hreference isInputType); [|done].
    by apply (forallb_elem_of _ _ _ Hwft).
  - intros position type st' [Htype Hkind] _ Hkept call.
    cbn [skipVisited journal]. intros [->|Hin]%elem_of_cons; [|by apply Hkept].
    by exists type.
  - intros position type st' [Htype Hkind] _ Hkept call.
    cbn [markVisited journal]. intros [->|Hin]%elem_of_cons; [|by apply Hkept].
    by exists type.
  - intros rootName rootType Hroot Hnamed.
    eapply (Hreference isOutputType); [|done]. by apply wellFormed_root.
  - intros directive arg argType Hdirective Harg Hnamed.
    eapply (Hreference isInputType); [|done].
    by apply (forallb_elem_of _ _ _ (wellFormed_directive _ _ Hwf Hdirective)).
  - cbn [journal]. by intros call ?%elem_of_nil.
Qed.

Lemma calls_fit_their_position_witness :
  callFits searchSchema
    {| visit_position := InputPosition; visit_name := "String";
       visit_marked := false |}.
Proof.
  eapply (calls_fit_their_position searchSchema).
  - vm_compute. reflexivity.
  - vm_compute. reflexivity.
  - cbn [journal]. left.
Defined.

(** * Interfaces and their implementers *)

(** X11: on a well-formed graph the traversal visits a type that
    implements an interface exactly when it visits the interface: the two
    are used or unused together. *)
Theorem implementer_visited_iff_interface graph st type iface ifaceType :
  wellFormed graph = true →
  markTypes (createPruningContext graph) = Some st →
  type ∈ typeMap graph →
  declares type iface →
  getType graph iface = Some ifaceType →
  isInterfaceType ifaceType = true →
  name type ∈ visitedTypes st ↔ iface ∈ visitedTypes st.
Proof.
  intros Hwf Hmark Hin (interfaces & Hinterfaces & Hiface) Htype Hkind.
  destruct (markTypes_traverses graph st Hwf Hmark) as (Hexpanded & _ & _).
  split.
  - intros Hvisited.
    apply (Hexpanded _ Hvisited type (wellFormed_getType _ _ Hwf Hin)).
    unfold references. unfold getInterfaces in Hinterfaces.
    destruct (definition type); simplify_eq; set_solver.
  - intros Hvisited. apply (Hexpanded _ Hvisited ifaceType Htype).
    pose proof (createPruningContext_indexes graph iface) as Hindex.
    destruct (getType_Some _ _ _ Htype) as [_ <-].
    unfold references. unfold isInterfaceType in Hkind.
    destruct (definition ifaceType); try done.
    destruct (getImplementations _ (name ifaceType)) as [implementers|].
    + destruct Hindex as [_ Hkeys]. simpl.
      apply elem_of_app. right. apply elem_of_app. left.
      apply Hkeys. exists type. split; [done|]. split; [done|].
      by exists interfaces.
    + exfalso. apply (Hindex (name type)). exists type.
      split; [done|]. split; [done|]. by exists interfaces.
Qed.

Lemma implementer_visited_iff_interface_witness :
  ∃ st,
    markTypes (createPruningContext cyclicSchema) = Some st
    ∧ ("Post" ∈ visitedTypes st ↔ "Node" ∈ visitedTypes st).
Proof.
  eexists. split; [vm_compute; reflexivity|].
  apply (implementer_visited_iff_interface cyclicSchema _
           (namedType "Post"
              (GraphQLObjectType
                 [field "id" "ID"; field "author" "Author"; field "next" "Node"]
                 ["Node"]))
           "Node" (namedType "Node" (GraphQLInterfaceType [field "id" "ID"] []))).
  - vm_compute. reflexivity.
  - vm_compute. reflexivity.
  - do 2 right. left.
  - exists ["Node"]. split; [reflexivity|left].
  - reflexivity.
  - reflexivity.
Defined.

(** X12: the lookup of line 134 never yields [undefined]: a key of an
    entry of the index is a key of the type map, and with distinct keys the
    type under it is one that declares the interface of the entry. *)
Theorem implementers_resolve graph iface implementers implementer :
  NoDup (typeNames graph) →
  getImplementations (implementations (createPruningContext graph)) iface
  = Some implementers →
  implementer ∈ implementers →
  ∃ type, getType graph implementer = Some type ∧ declares type iface.
Proof.
  intros Hnodup Hentry Hin.
  pose proof (createPruningContext_indexes graph iface) as Hindex.
  rewrite Hentry in Hindex. destruct Hindex as [_ Hkeys].
  apply Hkeys in Hin as (type & Htype & <- & Hdeclares).
  exists type. split; [by apply getType_elem_of|done].
Qed.

Lemma implementers_resolve_witness :
  ∃ type, getType cyclicSchema "Post" = Some type ∧ declares type "Node".
Proof.
  apply (implementers_resolve cyclicSchema "Node" ["Author"; "Post"] "Post").
  - compute_done.
  - vm_compute. reflexivity.
  - right. left.
Defined.

(** * The order of the type map *)

Lemma forallb_ext_in {A : Type} (f g : A → bool) (xs : list A) :
  (∀ x, x ∈ xs → f x = g x) → forallb f xs = forallb g xs.
Proof.
  induction xs as [|x xs IH]; intros Hext; [done|]. simpl.
  rewrite (Hext x) by left. f_equal. apply IH. intros y Hy. apply Hext. by right.
Qed.

(** Two graphs with the same types in some order, the same directives and
    the same roots. *)
Section Reordered.
Variables graph graph' : GraphQLSchema.
Hypothesis Hnodup : NoDup (typeNames graph).
Hypothesis Htypes : typeMap graph' ≡ₚ typeMap graph.
Hypothesis Hdirectives : directives graph' = directives graph.
Hypothesis Hquery : queryType graph' = queryType graph.
Hypothesis Hmutation : mutationType graph' = mutationType graph.
Hypothesis Hsubscription : subscriptionType graph' = subscriptionType graph.

Lemma reordered_NoDup : NoDup (typeNames graph').
Proof. unfold typeNames in *. by rewrite Htypes. Qed.

Lemma reordered_getType typeName :
  getType graph' typeName = getType graph typeName.
Proof.
  destruct (getType graph typeName) as [type|] eqn:Htype.
  - destruct (getType_Some _ _ _ Htype) as [Hin <-].
    apply getType_elem_of; [apply reordered_NoDup|]. by rewrite Htypes.
  - destruct (getType graph' typeName) as [type'|] eqn:Htype'; [|done].
    destruct (getType_Some _ _ _ Htype') as [Hin <-].
    rewrite Htypes in Hin.
    by rewrite (getType_elem_of _ _ Hnodup Hin) in Htype.
Qed.

Lemma reordered_getRootTypes : getRootTypes graph' = getRootTypes graph.
Proof. unfold getRootTypes. by rewrite Hquery, Hmutation, Hsubscription. Qed.

Lemma reordered_resolvesTo kind typeName :
  resolvesTo graph' kind typeName = resolvesTo graph kind typeName.
Proof. unfold resolvesTo. by rewrite reordered_getType. Qed.

Lemma reordered_wellFormedArgs args :
  wellFormedArgs graph' args = wellFormedArgs graph args.
Proof.
  unfold wellFormedArgs. apply forallb_ext_in. intros arg _.
  apply reordered_resolvesTo.
Qed.

Lemma reordered_wellFormedType type :
  wellFormedType graph' type = wellFormedType graph type.
Proof.
  assert (∀ fields, forallb (wellFormedField graph') fields
                    = forallb (wellFormedField graph) fields) as Hfields.
  { intros fields. apply forallb_ext_in. intros field _. unfold wellFormedField.
    by rewrite reordered_resolvesTo, reordered_wellFormedArgs. }
  assert (∀ kind typeNames, forallb (resolvesTo graph' kind) typeNames
                            = forallb (resolvesTo graph kind) typeNames) as Hnames.
  { intros kind typeNames. apply forallb_ext_in. intros typeName _.
    apply reordered_resolvesTo. }
  unfold wellFormedType. destruct (definition type); try done.
  - by rewrite Hfields, Hnames.
  - by rewrite Hfields, Hnames.
  - apply forallb_ext_in. intros field _. apply reordered_resolvesTo.
Qed.

Lemma reordered_wellFormed :
  wellFormed graph = true → wellFormed graph' = true.
Proof.
  unfold wellFormed. rewrite !andb_true_iff, !bool_decide_eq_true.
  intros [[[_ Hwft] Hwfd] Hwfr]. repeat split.
  - apply reordered_NoDup.
  - apply forallb_forall. intros type Hin%list_elem_of_In.
    rewrite reordered_wellFormedType. rewrite Htypes in Hin.
    by apply (forallb_elem_of _ _ _ Hwft).
  - rewrite Hdirectives. rewrite <-Hwfd. apply forallb_ext_in.
    intros directive _. apply reordered_wellFormedArgs.
  - rewrite reordered_getRootTypes. rewrite <-Hwfr. apply forallb_ext_in.
    intros rootName _. apply reordered_resolvesTo.
Qed.

(** The two indexes have the same entries, up to the order of the keys. *)
Lemma reordered_implementer iface implementers implementer :
  getImplementations (implementations (createPruningContext graph')) iface
  = Some implementers →
  implementer ∈ implementers →
  ∃ implementers',
    getImplementations (implementations (createPruningContext graph)) iface
    = Some implementers'
    ∧ implementer ∈ implementers'.
Proof.
  intros Hentry Hin.
  pose proof (createPruningContext_indexes graph' iface) as Hindex'.
  pose proof (createPruningContext_indexes graph iface) as Hindex.
  rewrite Hentry in Hindex'. destruct Hindex' as [_ Hkeys'].
  apply Hkeys' in Hin as (type & Htype & <- & Hdeclares).
  rewrite Htypes in Htype.
  destruct (getImplementations (implementations (createPruningContext graph)) iface)
    as [implementers'|].
  - exists implementers'. split; [done|]. destruct Hindex as [_ Hkeys].
    apply Hkeys. by exists type.
  - exfalso. apply (Hindex (name type)). by exists type.
Qed.

Lemma reordered_reaches position typeName :
  reaches graph' (implementations (createPruningContext graph')) position typeName →
  reaches graph (implementations (createPruningContext graph)) position typeName.
Proof.
  induction 1 as
    [rootName Hroot
    |directive arg Hdirective Harg
    |typeName type fields field _ IH Htype Hfields Hfield
    |typeName type fields field arg _ IH Htype Hfields Hfield Harg
    |typeName type implementers implementer _ IH Htype Hkind Hentry Himpl
    |typeName type interfaces iface _ IH Htype Hinterfaces Hiface
    |typeName type types member _ IH Htype Hdef Hmember
    |typeName type fields field _ IH Htype Hdef Hfield];
    try rewrite reordered_getType in Htype.
  - apply reaches_root. by rewrite <-reordered_getRootTypes.
  - eapply reaches_directive; [|done]. by rewrite <-Hdirectives.
  - by eapply reaches_field.
  - by eapply reaches_arg.
  - destruct (reordered_implementer _ _ _ Hentry Himpl)
      as (implementers' & Hentry' & Himpl').
    by eapply reaches_implementer.
  - by eapply reaches_interface.
  - by eapply reaches_member.
  - by eapply reaches_input_field.
Qed.

End Reordered.

Lemma reordered_reachable graph graph' typeName :
  NoDup (typeNames graph) →
  typeMap graph' ≡ₚ typeMap graph →
  directives graph' = directives graph →
  queryType graph' = queryType graph →
  mutationType graph' = mutationType graph →
  subscriptionType graph' = subscriptionType graph →
  reachable graph' typeName ↔ reachable graph typeName.
Proof.
  intros Hnodup Htypes Hdirectives Hquery Hmutation Hsubscription. split.
  - intros [position Hreach]. exists position.
    by apply (reordered_reaches graph graph').
  - intros [position Hreach]. exists position.
    apply (reordered_reaches graph' graph); try done.
    by apply (reordered_NoDup graph graph').
Qed.

(** X13: the removal set of a pass does not depend on the order in which
    the type map lists the types: a well-formed graph and a graph with the
    same types in another order, the same directives and the same roots give
    the same removal set. *)
Theorem typesToPrune_order_independent graph graph' options :
  wellFormed graph = true →
  typeMap graph' ≡ₚ typeMap graph →
  directives graph' = directives graph →
  queryType graph' = queryType graph →
  mutationType graph' = mutationType graph →
  subscriptionType graph' = subscriptionType graph →
  typesToPruneOf graph' options = typesToPruneOf graph options
  ∧ is_Some (typesToPruneOf graph options).
Proof.
  intros Hwf Htypes Hdirectives Hquery Hmutation Hsubscription.
  pose proof (wellFormed_NoDup _ Hwf) as Hnodup.
  pose proof (reordered_wellFormed graph graph' Hnodup Htypes Hdirectives
                Hquery Hmutation Hsubscription Hwf) as Hwf'.
  destruct (typesToPruneOf_succeeds graph options Hwf) as [typesToPrune Hprune].
  destruct (typesToPruneOf_succeeds graph' options Hwf') as [typesToPrune' Hprune'].
  split; [|by eexists]. rewrite Hprune, Hprune'. f_equal.
  apply leibniz_equiv. intros typeName.
  rewrite (selection_iff graph options typesToPrune typeName Hwf Hprune).
  rewrite (selection_iff graph' options typesToPrune' typeName Hwf' Hprune').
  pose proof (reordered_reachable graph graph' typeName Hnodup Htypes
                Hdirectives Hquery Hmutation Hsubscription) as Hreachable.
  pose proof (reordered_getType graph graph' Hnodup Htypes typeName) as Htype.
  split; intros (type & Hgot & Heligible & Hrule); exists type;
    (split; [congruence|]); (split; [done|]); tauto.
Qed.

Lemma typesToPrune_order_independent_witness :
  typesToPruneOf (querySchema (reverse (typeMap cyclicSchema)) []) defaultOptions
  = typesToPruneOf cyclicSchema defaultOptions
  ∧ is_Some (typesToPruneOf cyclicSchema defaultOptions).
Proof.
  apply (typesToPrune_order_independent cyclicSchema
           (querySchema (reverse (typeMap cyclicSchema)) []) defaultOptions).
  - vm_compute. reflexivity.
  - cbn [querySchema typeMap]. apply reverse_Permutation.
  - reflexivity.
  - reflexivity.
  - reflexivity.
  - reflexivity.
Defined.

(** * After a pass that removes unreachable types only *)

Lemma getRootTypes_kept graph typeMapper rootName :
  rootName ∈ getRootTypes graph →
  rootName ∉ removedNames graph typeMapper →
  rootName ∈ getRootTypes (mapSchema graph typeMapper).
Proof.
  unfold getRootTypes, mapSchema. cbn [queryType mutationType subscriptionType].
  generalize (removedNames graph typeMapper). intros removed.
  rewrite !elem_of_app.
  destruct (queryType graph) as [query|], (mutationType graph) as [mutation|],
    (subscriptionType graph) as [subscription|]; simpl;
    repeat case_decide; simpl; set_solver.
Qed.

Lemma rewireFields_kept removed fields field :
  field ∈ fields →
  getNamedType (field_type field) ∉ removed →
  rewireField removed field ∈ rewireFields removed fields.
Proof.
  intros Hin Hkept. unfold rewireFields. apply list_elem_of_fmap.
  exists field. split; [done|]. by apply list_elem_of_filter.
Qed.

(** The rebuild after a removal set that holds no reachable name keeps
    every reachable name reachable. *)
Section Rebuilt.
Variable graph : GraphQLSchema.
Variable typesToPrune : gset string.
Hypothesis Hwf : wellFormed graph = true.
Hypothesis Hunreachable :
  ∀ typeName, typeName ∈ typesToPrune → ¬ reachable graph typeName.

Lemma rebuilt_kept position typeName :
  reaches graph (implementations (createPruningContext graph)) position typeName →
  typeName ∉ removedNames graph (pruneMapper typesToPrune).
Proof.
  intros Hreach [Hin _]%elem_of_removedNames.
  apply (Hunreachable _ Hin). by exists position.
Qed.

Lemma rebuilt_getType position typeName type :
  reaches graph (implementations (createPruningContext graph)) position typeName →
  getType graph typeName = Some type →
  getType (mapSchema graph (pruneMapper typesToPrune)) typeName
  = Some (rewireNamedType (removedNames graph (pruneMapper typesToPrune)) type).
Proof.
  intros Hreach Htype. rewrite getType_mapSchema; [by rewrite Htype|].
  intros Hin. apply (Hunreachable _ Hin). by exists position.
Qed.

Lemma rebuilt_reaches position typeName :
  reaches graph (implementations (createPruningContext graph)) position typeName →
  reaches (mapSchema graph (pruneMapper typesToPrune))
    (implementations (createPruningContext (mapSchema graph (pruneMapper typesToPrune))))
    position typeName.
Proof.
  set (removed := removedNames graph (pruneMapper typesToPrune)).
  intros Hreach. induction Hreach as
    [rootName Hroot
    |directive arg Hdirective Harg
    |typeName type fields field Hreach IH Htype Hfields Hfield
    |typeName type fields field arg Hreach IH Htype Hfields Hfield Harg
    |typeName type implementers implementer Hreach IH Htype Hkind Hentry Himpl
    |typeName type interfaces iface Hreach IH Htype Hinterfaces Hiface
    |typeName type types member Hreach IH Htype Hdef Hmember
    |typeName type fields field Hreach IH Htype Hdef Hfield].
  - apply reaches_root, getRootTypes_kept; [done|].
    apply (rebuilt_kept OutputPosition). by apply reaches_root.
  - apply (reaches_directive _ _ (rewireDirective removed directive) arg).
    + cbn [mapSchema directives]. apply list_elem_of_fmap. by exists directive.
    + cbn [rewireDirective directive_args]. unfold rewireArgs.
      apply list_elem_of_filter. split; [|done].
      apply (rebuilt_kept InputPosition). by eapply reaches_directive.
  - pose proof (reaches_field _ _ _ _ _ _ Hreach Htype Hfields Hfield) as Htarget.
    apply (reaches_field _ _ typeName (rewireNamedType removed type)
             (rewireFields removed fields) (rewireField removed field));
      [done|by eapply rebuilt_getType| |].
    + unfold getFields in *. cbn [rewireNamedType definition].
      destruct (definition type); simplify_eq; done.
    + apply rewireFields_kept; [done|]. by eapply rebuilt_kept.
  - pose proof (reaches_field _ _ _ _ _ _ Hreach Htype Hfields Hfield) as Hvia.
    pose proof (reaches_arg _ _ _ _ _ _ _ Hreach Htype Hfields Hfield Harg)
      as Htarget.
    apply (reaches_arg _ _ typeName (rewireNamedType removed type)
             (rewireFields removed fields) (rewireField removed field) arg);
      [done|by eapply rebuilt_getType| | |].
    + unfold getFields in *. cbn [rewireNamedType definition].
      destruct (definition type); simplify_eq; done.
    + apply rewireFields_kept; [done|]. by eapply rebuilt_kept.
    + cbn [rewireField field_args]. unfold rewireArgs.
      apply list_elem_of_filter. split; [|done]. by eapply rebuilt_kept.
  - pose proof (reaches_implementer _ _ _ _ _ _ Hreach Htype Hkind Hentry Himpl)
      as Htarget.
    destruct (getType_Some _ _ _ Htype) as [_ Hname].
    pose proof (createPruningContext_indexes graph (name type)) as Hindex.
    rewrite Hentry in Hindex. destruct Hindex as [_ Hkeys].
    apply Hkeys in Himpl as (implementerType & Hin & <- & interfaces & Hgot & Hiface).
    pose proof (createPruningContext_indexes
                  (mapSchema graph (pruneMapper typesToPrune)) (name type))
      as Hindex'.
    assert (∃ type', type' ∈ typeMap (mapSchema graph (pruneMapper typesToPrune))
                     ∧ name type' = name implementerType
                     ∧ declares type' (name type)) as Hdeclared.
    { exists (rewireNamedType removed implementerType). split; [|split; [done|]].
      - apply elem_of_typeMap_mapSchema. exists implementerType.
        split; [done|]. split; [done|]. intros Hpruned.
        apply (Hunreachable _ Hpruned). by exists OutputPosition.
      - exists (rewireNamedTypes removed interfaces). split.
        + unfold getInterfaces in *. cbn [rewireNamedType definition].
          destruct (definition implementerType); simplify_eq; done.
        + unfold rewireNamedTypes. apply list_elem_of_filter. split; [|done].
          rewrite Hname. by eapply rebuilt_kept. }
    destruct (getImplementations
                (implementations (createPruningContext
                                    (mapSchema graph (pruneMapper typesToPrune))))
                (name type)) as [implementers'|] eqn:Hentry'.
    + destruct Hindex' as [_ Hkeys'].
      apply (reaches_implementer _ _ typeName (rewireNamedType removed type)
               implementers' (name implementerType));
        [done|by eapply rebuilt_getType| |done|by apply Hkeys'].
      unfold isInterfaceType in *. cbn [rewireNamedType definition].
      by destruct (definition type).
    + exfalso. destruct Hdeclared as (type' & Hin' & Hname' & Hdeclares').
      apply (Hindex' (name implementerType)). by exists type'.
  - pose proof (reaches_interface _ _ _ _ _ _ Hreach Htype Hinterfaces Hiface)
      as Htarget.
    apply (reaches_interface _ _ typeName (rewireNamedType removed type)
             (rewireNamedTypes removed interfaces) iface);
      [done|by eapply rebuilt_getType| |].
    + unfold getInterfaces in *. cbn [rewireNamedType definition].
      destruct (definition type); simplify_eq; done.
    + unfold rewireNamedTypes. apply list_elem_of_filter. split; [|done].
      by eapply rebuilt_kept.
  - pose proof (reaches_member _ _ _ _ _ _ Hreach Htype Hdef Hmember) as Htarget.
    apply (reaches_member _ _ typeName (rewireNamedType removed type)
             (rewireNamedTypes removed types) member);
      [done|by eapply rebuilt_getType| |].
    + cbn [rewireNamedType definition]. by rewrite Hdef.
    + unfold rewireNamedTypes. apply list_elem_of_filter. split; [|done].
      by eapply rebuilt_kept.
  - pose proof (reaches_input_field _ _ _ _ _ _ Hreach Htype Hdef Hfield)
      as Htarget.
    apply (reaches_input_field _ _ typeName (rewireNamedType removed type)
             (rewireInputFields removed fields) field);
      [done|by eapply rebuilt_getType| |].
    + cbn [rewireNamedType definition]. by rewrite Hdef.
    + unfold rewireInputFields. apply list_elem_of_filter. split; [|done].
      by eapply rebuilt_kept.
Qed.

End Rebuilt.

(** X14: with the two emptiness rules skipped and a [skipPruning] that
    does not tell a rebuilt type from the type it was (none, or one that
    goes by the name), one pass is enough on a well-formed graph: the pass
    over the rebuilt graph selects nothing, and [pruneSchema] returns the
    graph that the first pass rebuilt. *)
Theorem second_pass_selects_nothing graph options typesToPrune :
  wellFormed graph = true →
  skipEmptyCompositeTypePruning options = true →
  skipEmptyUnionPruning options = true →
  (∀ removed type,
     eligible options (rewireNamedType removed type) = eligible options type) →
  typesToPruneOf graph options = Some typesToPrune →
  typesToPruneOf (mapSchema graph (pruneMapper typesToPrune)) options = Some ∅
  ∧ pruneSchema graph options = Some (mapSchema graph (pruneMapper typesToPrune)).
Proof.
  intros Hwf Hcomposite Hunion Heligible Hprune.
  set (rebuilt := mapSchema graph (pruneMapper typesToPrune)).
  assert (∀ typeName, typeName ∈ typesToPrune → ¬ reachable graph typeName)
    as Hunreachable.
  { intros typeName (type & _ & _ & Hrule)%(selection_iff graph options); [|done..].
    destruct Hrule as [[_ ?]|[[_ ?]|[? _]]]; [congruence..|done]. }
  pose proof (wellFormed_mapSchema graph typesToPrune Hwf) as Hwf'.
  fold rebuilt in Hwf'.
  destruct (typesToPruneOf_succeeds rebuilt options Hwf') as [typesToPrune' Hprune'].
  assert (typesToPrune' = ∅) as ->.
  { apply leibniz_equiv. intros typeName. split; [|set_solver].
    intros (type' & Htype' & Heligible' & Hrule)%(selection_iff rebuilt options);
      [|done..].
    exfalso.
    destruct Hrule as [[_ ?]|[[_ ?]|[Hunreached Hflag]]]; [congruence..|].
    destruct (getType_Some _ _ _ Htype') as [Hin' <-].
    apply elem_of_typeMap_mapSchema in Hin' as (type & -> & Hin & Hkept).
    rewrite Heligible in Heligible'. cbn [rewireNamedType name] in *.
    destruct (typesToPruneOf_Some _ _ _ Hprune) as (st & Hmark & _).
    destruct (decide (name type ∈ visitedTypes st)) as [Hvisited|Hunvisited].
    - apply (markTypes_visited_iff graph st _ Hwf Hmark) in Hvisited
        as [position Hreach].
      apply Hunreached. exists position. by apply rebuilt_reaches.
    - apply Hkept. apply (selection_iff graph options typesToPrune); [done..|].
      exists type. split; [by apply wellFormed_getType|]. split; [done|].
      right. right. split; [|done].
      by rewrite <-(markTypes_visited_iff graph st _ Hwf Hmark). }
  split; [done|].
  unfold pruneSchema, pruneFuel. cbn [pruneSchemaWithin]. rewrite Hprune. simpl.
  case_decide as Hsize.
  - done.
  - destruct (length (typeMap graph)) as [|fuel] eqn:Hlength.
    + exfalso. destruct (size_pos_elem_of typesToPrune) as [typeName Hin]; [lia|].
      destruct (typesToPruneOf_typeNames _ _ _ _ Hprune Hin) as (type & Htype & _).
      destruct (typeMap graph); [by apply elem_of_nil in Htype|done].
    + cbn [pruneSchemaWithin]. fold rebuilt. rewrite Hprune'. simpl.
      assert (size (∅ : gset string) = 0) as Hzero by apply size_empty.
      rewrite decide_True by done. by rewrite mapSchema_nothing.
Qed.

Lemma second_pass_selects_nothing_witness :
  let rebuilt := mapSchema cyclicSchema (pruneMapper {["Orphan"; "Twin"]}) in
  typesToPruneOf rebuilt unusedOnly = Some ∅
  ∧ pruneSchema cyclicSchema unusedOnly = Some rebuilt.
Proof.
  intros rebuilt.
  apply (second_pass_selects_nothing cyclicSchema unusedOnly {["Orphan"; "Twin"]}).
  - vm_compute. reflexivity.
  - reflexivity.
  - reflexivity.
  - intros removed type. reflexivity.
  - vm_compute. reflexivity.
Defined.
